(** * Busca sem informação (largura / profundidade) sobre o quebra-cabeça 3×3

    Shallow embedding of [busca_sem_com_informacao.py]: the classes [Nodo],
    [Busca] and [QuebraCabeca], followed by the properties proved of them. *)

From stdpp Require Import gmap strings list pretty sorting.
From Stdlib Require Import ZArith Lia.

Set Default Proof Using "Type".
#[local] Set Warnings "-register-all,-clear-no-such-hyp".

(** ** Python's [sorted(xs, key=k, reverse=r)] on string keys

    The sort is stable; with [reverse=True] the comparison is reversed and
    elements with equal keys still keep their original order. *)
Section sorted.
Context {A : Type} (key : A → string).

Definition antes (reverse : bool) (x y : A) : bool :=
  if reverse then String.leb (key y) (key x) else String.leb (key x) (key y).

Fixpoint inserir (reverse : bool) (x : A) (l : list A) : list A :=
  match l with
  | [] => [x]
  | y :: l' => if antes reverse x y then x :: y :: l' else y :: inserir reverse x l'
  end.

Definition sorted (reverse : bool) (l : list A) : list A :=
  foldr (inserir reverse) [] l.
End sorted.

(** ** class Nodo *)
Section Nodo.
Context {State : Type}.

Inductive Nodo : Type :=
  mkNodo { estado : State; pai : option Nodo; acao : string }.

(** [Nodo.__init__(estado, pai=None, acao=None)]: a missing action becomes
    the marker ["Z"]. *)
Definition novo_nodo (e : State) (p : option Nodo) (a : option string) : Nodo :=
  {| estado := e; pai := p; acao := match a with None => "Z" | Some a => a end |}.

(** The [while nodo:] loop of [caminho_]: append the node, move to its
    parent, stop when there is none. *)
Fixpoint subir (nodo : Nodo) (caminho : list Nodo) : list Nodo :=
  let caminho := caminho ++ [nodo] in
  match pai nodo with
  | None => caminho
  | Some p => subir p caminho
  end.

(** [Nodo.caminho_]: what iterating the generator yields. *)
Definition caminho_ (self : Nodo) : list Nodo := reverse (subir self []).

(** Induction along the parent chain. *)
Fixpoint Nodo_chain_ind (P : Nodo → Prop)
    (Hraiz : ∀ e a, P (mkNodo e None a))
    (Hfilho : ∀ e p a, P p → P (mkNodo e (Some p) a))
    (n : Nodo) : P n :=
  match n with
  | mkNodo e None a => Hraiz e a
  | mkNodo e (Some p) a => Hfilho e p a (Nodo_chain_ind P Hraiz Hfilho p)
  end.

(** The chain of parent references starting at a node, as the
    specification words it: the node, its parent, and so on until a node
    has no parent. *)
Fixpoint ancestrais (n : Nodo) : list Nodo :=
  n :: match pai n with
       | None => []
       | Some p => ancestrais p
       end.

(** Number of actions between the root and a node. *)
Definition profundidade (n : Nodo) : nat := length (ancestrais n) - 1.

End Nodo.
Arguments Nodo : clear implicits.

(** ** class Busca *)
Section Busca.
Context {State : Type}.
(** The capabilities [buscar] uses of a state: the [objetivo] property,
    [str(estado)] and the [acoes] property, a list of pairs
    (movimento, acao) where calling [movimento()] builds the next state. *)
Variable objetivo : State → bool.
Variable str : State → string.
Variable acoes : State → list ((unit → State) * string).

(** The local variables of [buscar], with two observations of the run:
    [visitados] lists the nodes taken from [borda] in order (what
    [mostrar] prints), [criados] counts the calls of [Nodo(...)]. *)
Record Execucao : Type := mkExecucao {
  borda : list (Nodo State);
  explorado : gset string;
  visitados : list (Nodo State);
  criados : nat
}.

(** What [buscar] gives back: the path generator, [None], or (in the model
    only) the loop budget ran out. *)
Inductive Retorno : Type :=
| Caminho (p : list (Nodo State))
| Nenhum
| SemCombustivel.

(** [deque.popleft()] and [deque.pop()] on a non-empty deque. *)
Definition popleft (b : list (Nodo State)) : option (Nodo State * list (Nodo State)) :=
  match b with
  | [] => None
  | n :: b' => Some (n, b')
  end.

Definition pop (b : list (Nodo State)) : option (Nodo State * list (Nodo State)) :=
  match reverse b with
  | [] => None
  | n :: r => Some (n, reverse r)
  end.

(** Taking the next node of the frontier: [popleft] in breadth-first mode,
    [pop] in depth-first mode. *)
Definition tirar (largura : bool) (b : list (Nodo State)) :
    option (Nodo State * list (Nodo State)) :=
  if largura then popleft b else pop b.

(** [str(nodo.estado)], the key kept in [explorado]. *)
Definition chave (n : Nodo State) : string := str (estado n).

(** [adjacente = Nodo(movimento(), nodo_atual, acao)] *)
Definition filho (nodo_atual : Nodo State) (ma : (unit → State) * string) : Nodo State :=
  novo_nodo (ma.1 ()) (Some nodo_atual) (Some ma.2).

(** One turn of the [for movimento, acao in sorted(...)] loop. *)
Definition visitar (nodo_atual : Nodo State) (e : Execucao)
    (ma : (unit → State) * string) : Execucao :=
  let adjacente := filho nodo_atual ma in
  if decide (chave adjacente ∈ explorado e)
  then mkExecucao (borda e) (explorado e) (visitados e) (S (criados e))
  else mkExecucao (borda e ++ [adjacente])
                  (explorado e ∪ {[ chave adjacente ]})
                  (visitados e) (S (criados e)).

(** The whole [for] loop over the sorted actions of [nodo_atual]. *)
Definition expandir (reverse : bool) (nodo_atual : Nodo State) (e : Execucao) : Execucao :=
  foldl (visitar nodo_atual) e (sorted snd reverse (acoes (estado nodo_atual))).

(** The state once [nodo_atual] has left the frontier. *)
Definition apos_tirar (e : Execucao) (nodo_atual : Nodo State)
    (borda' : list (Nodo State)) : Execucao :=
  mkExecucao borda' (explorado e) (visitados e ++ [nodo_atual]) (criados e).

(** The [while borda:] loop. The source writes it twice, once per mode;
    the two copies differ only in the end of [borda] the node is taken
    from and in the order of the actions: ascending labels in
    breadth-first mode, descending ([reverse=True]) in depth-first mode.
    [fuel] bounds the number of iterations of the model; Python's loop
    has no such bound. *)
Fixpoint laco (largura : bool) (fuel : nat) (e : Execucao) : Retorno * Execucao :=
  match fuel with
  | O => (SemCombustivel, e)
  | S fuel' =>
    match tirar largura (borda e) with
    | None => (Nenhum, e)
    | Some (nodo_atual, borda') =>
      if objetivo (estado nodo_atual)
      then (Caminho (caminho_ nodo_atual), apos_tirar e nodo_atual borda')
      else laco largura fuel'
             (expandir (negb largura) nodo_atual (apos_tirar e nodo_atual borda'))
    end
  end.

(** The children one expansion appends to the frontier, as a function of
    the explored set it starts from and of the actions in the order they
    are tried (see [expandir_eq]). *)
Fixpoint novos (c : Nodo State) (X : gset string)
    (acts : list ((unit → State) * string)) : list (Nodo State) :=
  match acts with
  | [] => []
  | ma :: acts' =>
    if decide (chave (filho c ma) ∈ X) then novos c X acts'
    else filho c ma :: novos c (X ∪ {[ chave (filho c ma) ]}) acts'
  end.

(** The state of [buscar] before it looks at [tipo_busca]. *)
Definition inicial (inicio : State) : Execucao :=
  let raiz := novo_nodo inicio None None in
  mkExecucao [raiz] {[ chave raiz ]} [] 1.

(** [Busca(inicio).buscar(tipo_busca)]. *)
Definition buscar (inicio : State) (tipo_busca : string) (fuel : nat) : Retorno * Execucao :=
  if String.eqb tipo_busca "largura" then laco true fuel (inicial inicio)
  else if String.eqb tipo_busca "profundidade" then laco false fuel (inicial inicio)
  else (Nenhum, inicial inicio).

(** *** Notions used to state the properties of a run *)

(** States reachable from [inicio] through the moves listed by [acoes];
    [alcancavel_em k] counts the moves. *)
Inductive alcancavel_em (inicio : State) : nat → State → Prop :=
| alcancavel_zero : alcancavel_em inicio 0 inicio
| alcancavel_passo k s ma :
    alcancavel_em inicio k s → ma ∈ acoes s → alcancavel_em inicio (S k) (ma.1 ()).

Definition alcancavel (inicio s : State) : Prop := ∃ k, alcancavel_em inicio k s.

(** The nodes a run can build and put on the frontier: the root, and the
    child built for an action of an expanded node; a node is expanded only
    after its state failed the goal test. *)
Inductive valido (inicio : State) : Nodo State → Prop :=
| valido_raiz : valido inicio (novo_nodo inicio None None)
| valido_filho c ma :
    valido inicio c → objetivo (estado c) = false → ma ∈ acoes (estado c) →
    valido inicio (filho c ma).

(** The nodes of a run that were expanded: those taken from the frontier
    whose state is not a goal. *)
Definition expandidos (e : Execucao) : list (Nodo State) :=
  filter (λ n, objetivo (estado n) = false) (visitados e).

(** Every node that was ever put on the frontier: those already taken from
    it and those still there. *)
Definition enfileirados (e : Execucao) : list (Nodo State) :=
  visitados e ++ borda e.

(** The counting invariant of the loop: the explored set holds exactly the
    keys of the nodes put on the frontier, these keys are pairwise
    distinct, and the nodes constructed are the root and one per action of
    every expanded node. *)
Definition contagem (e : Execucao) : Prop :=
  explorado e = list_to_set (chave <$> enfileirados e)
  ∧ NoDup (chave <$> enfileirados e)
  ∧ criados e = 1 + sum_list ((λ n, length (acoes (estado n))) <$> expandidos e)
  ∧ length (enfileirados e) ≤ criados e.

(** What holds at the head of every iteration. *)
Definition invariante (inicio : State) (e : Execucao) : Prop :=
  contagem e ∧ Forall (valido inicio) (enfileirados e).

(** The frontier holds nodes of depth [d] followed by nodes of depth
    [d + 1], and no node taken so far is deeper than [d]. *)
Definition niveis (d : nat) (e : Execucao) : Prop :=
  ∃ A B, borda e = A ++ B
    ∧ Forall (λ n, profundidade n = d) A
    ∧ Forall (λ n, profundidade n = S d) B
    ∧ (A = [] → B = [])
    ∧ Forall (λ c, profundidade c ≤ d) (visitados e).

(** Every state one action away from an expanded node has a node on the
    frontier or among those taken, at most one level deeper. *)
Definition fechado (e : Execucao) : Prop :=
  ∀ c ma, c ∈ visitados e → ma ∈ acoes (estado c) →
    ∃ m, m ∈ enfileirados e ∧ estado m = ma.1 () ∧ profundidade m ≤ S (profundidade c).

(** What holds at the head of every iteration of breadth-first search. *)
Definition inv_largura (inicio : State) (e : Execucao) : Prop :=
  invariante inicio e
  ∧ novo_nodo inicio None None ∈ enfileirados e
  ∧ Forall (λ c, objetivo (estado c) = false) (visitados e)
  ∧ (∃ d, niveis d e)
  ∧ fechado e.


(** *** Further notions: what the explored set and the parents cover *)

(** The keys of the states one action away from a node that was taken
    from the frontier and expanded are explored. *)
Definition fechado_chaves (e : Execucao) : Prop :=
  ∀ c ma, c ∈ visitados e → objetivo (estado c) = false → ma ∈ acoes (estado c) →
    chave (filho c ma) ∈ explorado e.

(** The parent of a node put on the frontier was taken from it before. *)
Definition pais_visitados (e : Execucao) : Prop :=
  ∀ n p, n ∈ enfileirados e → pai n = Some p → p ∈ visitados e.

(** What holds of the state of [buscar] whenever it returns. *)
Definition inv_cobertura (inicio : State) (e : Execucao) : Prop :=
  invariante inicio e ∧ fechado_chaves e ∧ pais_visitados e ∧ str inicio ∈ explorado e.

(** What holds in addition at the head of every iteration. *)
Definition inv_cabeca (inicio : State) (e : Execucao) : Prop :=
  inv_cobertura inicio e ∧ Forall (λ c, objetivo (estado c) = false) (visitados e).

(** Nodes listed in order of depth. *)
Definition por_profundidade (ns : list (Nodo State)) : Prop :=
  StronglySorted (λ a b, profundidade a ≤ profundidade b) ns.

(** The state reached from [s] by taking, one after the other, the
    actions of [acoes] that carry the given labels. *)
Fixpoint seguir (rotulos : list string) (s : State) : option State :=
  match rotulos with
  | [] => Some s
  | a :: rotulos' =>
    match find (λ ma : (unit → State) * string, String.eqb ma.2 a) (acoes s) with
    | Some ma => seguir rotulos' (ma.1 ())
    | None => None
    end
  end.

(** *** The loop with the explored keys in a list

    [laco_lista] is [laco] reduced to what decides its result: the
    frontier and the explored keys, the keys kept in a list that is
    searched with [String.eqb]. It gives the same result as [laco]
    (lemma [laco_lista_eq]) and serves to evaluate long runs. *)
Definition visitar_lista (nodo_atual : Nodo State)
    (bx : list (Nodo State) * list string) (ma : (unit → State) * string) :
    list (Nodo State) * list string :=
  let adjacente := filho nodo_atual ma in
  let k := chave adjacente in
  if existsb (String.eqb k) bx.2 then bx else (bx.1 ++ [adjacente], k :: bx.2).

Fixpoint laco_lista (largura : bool) (fuel : nat) (b : list (Nodo State))
    (X : list string) : Retorno :=
  match fuel with
  | O => SemCombustivel
  | S fuel' =>
    match tirar largura b with
    | None => Nenhum
    | Some (nodo_atual, borda') =>
      if objetivo (estado nodo_atual)
      then Caminho (caminho_ nodo_atual)
      else
        let bx := foldl (visitar_lista nodo_atual) (borda', X)
                    (sorted snd (negb largura) (acoes (estado nodo_atual))) in
        laco_lista largura fuel' bx.1 bx.2
    end
  end.

End Busca.
Arguments Execucao : clear implicits.
Arguments Retorno : clear implicits.

(** ** class QuebraCabeca *)
Module QuebraCabeca.

(** [self.tabela]: a list of rows, each a list of numbers. *)
Abbreviation tabela := (list (list Z)).
#[local] Open Scope Z_scope.

(** [self.tamanho = 3] *)
Definition tamanho : Z := 3.

(** *** The numpy operations used by [objetivo]

    [np.array] of Python integers has the 64-bit integer dtype; sums wrap
    around silently. *)
Definition wrap64 (z : Z) : Z := (z + 2 ^ 63) `mod` 2 ^ 64 - 2 ^ 63.

Definition np_add (a b : Z) : Z := wrap64 (a + b).

Definition np_sum (xs : list Z) : Z := foldl np_add 0 xs.

(** The main diagonal, read while both indices are in range. *)
Fixpoint diagonal (i : nat) (a : tabela) : list Z :=
  match a with
  | [] => []
  | lin :: a' =>
    match lin !! i with
    | Some x => x :: diagonal (S i) a'
    | None => []
    end
  end.

(** [a.trace()] *)
Definition trace (a : tabela) : Z := np_sum (diagonal 0%nat a).

(** [a.sum(axis=1)]: one sum per row. *)
Definition sum_axis1 (a : tabela) : list Z := np_sum <$> a.

(** [a.sum(axis=0)]: one sum per column (rows of equal length). *)
Definition sum_axis0 (a : tabela) : list Z :=
  match a with
  | [] => []
  | lin :: a' => foldl (zip_with np_add) lin a'
  end.

(** [np.unique]: the sorted distinct elements. *)
Fixpoint inserir_unico (x : Z) (l : list Z) : list Z :=
  match l with
  | [] => [x]
  | y :: l' =>
    if (x <? y)%Z then x :: y :: l'
    else if (x =? y)%Z then y :: l'
    else y :: inserir_unico x l'
  end.

Definition unique (l : list Z) : list Z := foldr inserir_unico [] l.

(** The [objetivo] property. *)
Definition objetivo (self : tabela) : bool :=
  let estado := self in
  let diagonais :=
    replicate (Z.to_nat tamanho) (trace estado)
    ++ replicate (Z.to_nat tamanho) (trace (reverse estado)) in
  let somas := sum_axis0 estado ++ sum_axis1 estado ++ diagonais in
  let x := unique somas in
  match x with
  | [x0] => bool_decide (x0 = 15%Z)
  | _ => false
  end.

(** *** Moves *)

(** [self.tabela[l][c]] for indices already known to be non-negative;
    [None] is Python's IndexError. *)
Definition celula (t : tabela) (l c : Z) : option Z :=
  t !! Z.to_nat l ≫= λ lin, lin !! Z.to_nat c.

(** [t[l][c] = v] *)
Definition atribuir (t : tabela) (l c : Z) (v : Z) : tabela :=
  alter (λ lin, <[Z.to_nat c := v]> lin) (Z.to_nat l) t.

(** [copiar]: every row is rebuilt by a list comprehension. *)
Definition copiar (self : tabela) : tabela :=
  fmap (M:=list) (λ lin : list Z, fmap (M:=list) (λ x : Z, x) lin) self.

(** [mover(origem, destino)]: the two cells of the copy are exchanged.
    Python raises IndexError when a coordinate is outside the board; the
    model then returns the copy as it is. The moves listed by [acoes] on a
    3×3 board are always inside it (see [movimentos_dentro]). *)
Definition mover (self : tabela) (origem destino : Z * Z) : tabela :=
  let copia := copiar self in
  let '(i, j) := origem in
  let '(r, c) := destino in
  match celula copia r c, celula copia i j with
  | Some v_rc, Some v_ij => atribuir (atribuir copia i j v_rc) r c v_ij
  | _, _ => copia
  end.

(** The dictionary [direcoes] of cell (i, j), in insertion order. *)
Definition direcoes (i j : Z) : list (string * (Z * Z)) :=
  [ ("1 Cima", (i + 1, j)%Z);
    ("2 Baixo", (i - 1, j)%Z);
    ("3 Esquerda", (i, j + 1)%Z);
    ("4 Direita", (i, j - 1)%Z) ].

(** [range(self.tamanho)] and [itertools.product] of it with itself. *)
Definition range_tamanho : list Z := [0; 1; 2]%Z.

Definition produto : list (Z * Z) :=
  i ← range_tamanho; j ← range_tamanho; [(i, j)].

(** The guard of the inner loop of [acoes]. Where the board has no cell
    (l, c) Python raises IndexError; the model answers [false]. *)
Definition livre (t : tabela) (l c : Z) : bool :=
  bool_decide (0 ≤ l)%Z && bool_decide (0 ≤ c)%Z
  && bool_decide (l < tamanho)%Z && bool_decide (c < tamanho)%Z
  && bool_decide (celula t l c = Some 9%Z).

(** [conj_movimentos] as data: origin, destination and label of every
    move, in the order the loops append them. *)
Definition movimentos (self : tabela) : list ((Z * Z) * (Z * Z) * string) :=
  '(i, j) ← produto;
  '(acao, (l, c)) ← direcoes i j;
  if livre self l c then [((i, j), (l, c), acao)] else [].

(** The [acoes] property: each move as the closure
    [lambda: self.mover(origem, destino)] paired with its label. *)
Definition acoes (self : tabela) : list ((unit → tabela) * string) :=
  (λ m : (Z * Z) * (Z * Z) * string, (λ _ : unit, mover self m.1.1 m.1.2, m.2))
    <$> movimentos self.

(** [__iter__] yields the cells row by row; [__str__] joins their
    decimal representations. *)
Definition iter (self : tabela) : list Z := mjoin self.

(** [''.join(map(str, cells))] *)
Definition juntar (cells : list Z) : string :=
  foldr String.append "" (pretty <$> cells).

Definition str (self : tabela) : string := juntar (iter self).

(** A board of three rows of three cells. *)
Definition tabela_ok (t : tabela) : Prop :=
  length t = 3%nat ∧ Forall (λ lin, length lin = 3%nat) t.

(** All lists of [n] elements of [C]. *)
Fixpoint palavras (n : nat) (C : list Z) : list (list Z) :=
  match n with
  | O => [[]]
  | S n' => x ← C; w ← palavras n' C; [x :: w]
  end.

(** The keys of the boards with the cells of [t0]. *)
Definition chaves_de (t0 : list (list Z)) : gset string :=
  list_to_set (juntar <$> palavras (length (mjoin t0)) (mjoin t0)).

(** [estado_inicial] of [main]. *)
Definition estado_inicial : tabela := [[6; 9; 8]; [7; 1; 3]; [2; 5; 4]]%Z.

(** *** Notions used to describe the moves *)

(** A position of the 3×3 board. *)
Definition dentro (p : Z * Z) : Prop := (0 ≤ p.1 < 3 ∧ 0 ≤ p.2 < 3)%Z.

(** The cell at a position. *)
Definition celula_em (t : tabela) (p : Z * Z) : option Z := celula t p.1 p.2.

(** The step (rows, columns) the 9 makes under each label: it leaves
    [destino] and arrives at [origem]. *)
Definition direcao_de (acao : string) : option (Z * Z) :=
  if String.eqb acao "1 Cima" then Some (-1, 0)%Z
  else if String.eqb acao "2 Baixo" then Some (1, 0)%Z
  else if String.eqb acao "3 Esquerda" then Some (0, -1)%Z
  else if String.eqb acao "4 Direita" then Some (0, 1)%Z
  else None.

(** The board holds the 9 at position [p] and nowhere else. *)
Definition um_nove (t : tabela) (p : Z * Z) : Prop :=
  dentro p ∧ ∀ q, dentro q → (celula_em t q = Some 9%Z ↔ q = p).

(** The moves toward position [d]: what [conj_movimentos] holds when
    the only 9 of the board is at [d]. *)
Definition vizinhos (d : Z * Z) : list ((Z * Z) * (Z * Z) * string) :=
  '(i, j) ← produto;
  '(acao, (l, c)) ← direcoes i j;
  if bool_decide ((l, c) = d) then [((i, j), (l, c), acao)] else [].

End QuebraCabeca.


(** ** QuebraCabeca objects in memory

    [copiar] and [mover] build new list objects and assign to their
    cells. To see which objects an assignment can reach, the same two
    methods are modelled over a store of objects: a row is a list object
    holding integers, a board is a list object holding references to rows,
    and a [QuebraCabeca] instance holds a reference to its board. *)
Module Memoria.

Abbreviation loc := nat.

Inductive objeto : Type :=
| Linha (xs : list Z)
| Linhas (ls : list loc)
| Quebra (tamanho : Z) (tabela : loc).

Abbreviation memoria := (gmap loc objeto).

(** Computations that read and update the store and may raise. *)
Definition M (A : Type) : Type := memoria → option (A * memoria).

#[export] Instance M_ret : MRet M := λ A x h, Some (x, h).

#[export] Instance M_bind : MBind M :=
  λ A B k m h, match m h with
               | Some (x, h') => k x h'
               | None => None
               end.

Definition erro {A} : M A := λ _, None.

(** A new object gets a reference that is not in use. *)
Definition alocar (o : objeto) : M loc :=
  λ h, let l := fresh (dom h) in Some (l, <[l := o]> h).

Definition ler (l : loc) : M objeto :=
  λ h, match h !! l with
       | Some o => Some (o, h)
       | None => None
       end.

Definition escrever (l : loc) (o : objeto) : M unit :=
  λ h, Some ((), <[l := o]> h).

Definition ler_linha (l : loc) : M (list Z) :=
  o ← ler l; match o with Linha xs => mret xs | _ => erro end.

Definition ler_linhas (l : loc) : M (list loc) :=
  o ← ler l; match o with Linhas ls => mret ls | _ => erro end.

(** [self.tabela] *)
Definition campo_tabela (self : loc) : M loc :=
  o ← ler self; match o with Quebra _ t => mret t | _ => erro end.

(** The position Python's [xs[k]] denotes in a list of length [n]:
    negative indices count from the end, anything else outside the list
    raises IndexError. *)
Definition indice (n : nat) (k : Z) : option nat :=
  if decide (0 ≤ k < Z.of_nat n)%Z then Some (Z.to_nat k)
  else if decide (- Z.of_nat n ≤ k < 0)%Z then Some (Z.to_nat (Z.of_nat n + k))
  else None.

(** The position a valid index denotes. *)
Definition posicao (n : nat) (k : Z) : nat := Z.to_nat (k `mod` Z.of_nat n).

Definition item {A} (xs : list A) (k : Z) : M A :=
  match indice (length xs) k ≫= λ p, xs !! p with
  | Some x => mret x
  | None => erro
  end.

(** The loop of [copiar]: [tabela.append([x for x in lin])] for every row
    of [self.tabela]. *)
Fixpoint copiar_linhas (tabela : loc) (ls : list loc) : M unit :=
  match ls with
  | [] => mret ()
  | lin :: ls' =>
    xs ← ler_linha lin;
    nova ← alocar (Linha ((λ x, x) <$> xs));
    atual ← ler_linhas tabela;
    _ ← escrever tabela (Linhas (atual ++ [nova]));
    copiar_linhas tabela ls'
  end.

(** [copiar] *)
Definition copiar (self : loc) : M loc :=
  t ← campo_tabela self;
  ls ← ler_linhas t;
  tabela ← alocar (Linhas []);
  _ ← copiar_linhas tabela ls;
  alocar (Quebra QuebraCabeca.tamanho tabela).

(** [q.tabela[l][c]] as an expression and as the target of an
    assignment. *)
Definition obter (q : loc) (l c : Z) : M Z :=
  t ← campo_tabela q;
  ls ← ler_linhas t;
  lin ← item ls l;
  xs ← ler_linha lin;
  item xs c.

Definition atribuir (q : loc) (l c : Z) (v : Z) : M unit :=
  t ← campo_tabela q;
  ls ← ler_linhas t;
  lin ← item ls l;
  xs ← ler_linha lin;
  match indice (length xs) c with
  | Some p => escrever lin (Linha (<[p := v]> xs))
  | None => erro
  end.

(** [mover(origem, destino)]: the right-hand side of the exchange is
    evaluated first, then the two targets are assigned from left to
    right. *)
Definition mover (self : loc) (origem destino : Z * Z) : M loc :=
  copia ← copiar self;
  let '(i, j) := origem in
  let '(r, c) := destino in
  v_rc ← obter copia r c;
  v_ij ← obter copia i j;
  _ ← atribuir copia i j v_rc;
  _ ← atribuir copia r c v_ij;
  mret copia.

(** The rows at [ls] read as [t]. *)
Definition linhas_em (h : memoria) (ls : list loc) (t : list (list Z)) : Prop :=
  Forall2 (λ l xs, h !! l = Some (Linha xs)) ls t.

(** A [QuebraCabeca] at [q] made of the board object [tl] with rows [ls],
    reading as [t]. *)
Definition feito_de (h : memoria) (q tl : loc) (ls : list loc)
    (t : list (list Z)) : Prop :=
  h !! q = Some (Quebra QuebraCabeca.tamanho tl)
  ∧ h !! tl = Some (Linhas ls)
  ∧ linhas_em h ls t.

(** The store holds at [q] a [QuebraCabeca] whose board reads as [t]. *)
Definition representa (h : memoria) (q : loc) (t : list (list Z)) : Prop :=
  ∃ tl ls, feito_de h q tl ls t.

(** The objects a [QuebraCabeca] at [q] is made of: the instance, its
    board and the rows of the board. *)
Definition objetos_de (h : memoria) (q : loc) : list loc :=
  match h !! q with
  | Some (Quebra _ tl) =>
    match h !! tl with
    | Some (Linhas ls) => q :: tl :: ls
    | _ => [q]
    end
  | _ => []
  end.

End Memoria.

(** ** Boards and stores used as examples *)
Module Tabuleiros.

(** A magic square whose blank (9) was moved one cell to the right. *)
Definition quase : list (list Z) := [[2; 7; 6]; [5; 9; 1]; [4; 3; 8]]%Z.

Definition quase_raiz : Nodo (list (list Z)) := novo_nodo quase None None.

Definition quase_solucao : Nodo (list (list Z)) :=
  mkNodo [[2; 7; 6]; [9; 5; 1]; [4; 3; 8]]%Z (Some quase_raiz) "3 Esquerda".


(** The same magic square with the blank moved one cell down, and the
    path depth-first search finds from it. *)
Definition abaixo : list (list Z) := [[2; 7; 6]; [4; 5; 1]; [9; 3; 8]]%Z.

Definition abaixo_raiz : Nodo (list (list Z)) := novo_nodo abaixo None None.

Definition abaixo_solucao : Nodo (list (list Z)) :=
  mkNodo [[2; 7; 6]; [9; 5; 1]; [4; 3; 8]]%Z (Some abaixo_raiz) "1 Cima".


(** A store holding [estado_inicial] of [main] as object 0. *)
Definition memoria_inicial : gmap nat Memoria.objeto :=
  <[0 := Memoria.Quebra 3 1]>
    (<[1 := Memoria.Linhas [2; 3; 4]]>
       (<[2 := Memoria.Linha [6; 9; 8]%Z]>
          (<[3 := Memoria.Linha [7; 1; 3]%Z]>
             (<[4 := Memoria.Linha [2; 5; 4]%Z]> ∅)))).

(** The action of [quase] that slides the blank to the left. *)
Definition quase_esquerda : (unit → list (list Z)) * string :=
  (λ _, QuebraCabeca.mover quase (1, 0)%Z (1, 1)%Z, "3 Esquerda").

(** A board with a two-digit tile. [QuebraCabeca] accepts it, and its
    tiles 1, 0 and 10 give different boards the same key: the rows
    [1; 0; 10] and [10; 1; 0] both read 1010. *)
Definition dez : list (list Z) := [[8; 1; 10]; [6; 0; 4]; [2; 9; 5]]%Z.

(** Nine moves that lead from [dez] to a goal. *)
Definition dez_atalho : list string :=
  ["4 Direita"; "1 Cima"; "1 Cima"; "3 Esquerda"; "3 Esquerda"; "2 Baixo";
   "4 Direita"; "2 Baixo"; "3 Esquerda"].



End Tabuleiros.

(** ** An endless state space *)

(** The states 0, 1, 2, ... in a chain: each has one action, which leads
    to the next; no state is a goal, and the key of a state is its decimal
    representation. *)
Module Cadeia.

Definition objetivo (n : nat) : bool := false.

Definition str (n : nat) : string := pretty n.

Definition acoes (n : nat) : list ((unit → nat) * string) := [(λ _, S n, "1 Cima")].

End Cadeia.

(** * Properties *)

(** ** Paths of nodes *)
Section Nodo_facts.
Context {State : Type}.
Implicit Types n p : Nodo State.

Lemma subir_ancestrais n acc : subir n acc = acc ++ ancestrais n.
Proof.
  revert acc. induction n as [e a|e p a IH] using Nodo_chain_ind; intros acc; simpl.
  - done.
  - rewrite IH. by rewrite <- app_assoc.
Qed.

Lemma caminho_ancestrais n : caminho_ n = reverse (ancestrais n).
Proof. unfold caminho_. by rewrite subir_ancestrais. Qed.

Lemma caminho_raiz n : pai n = None → caminho_ n = [n].
Proof.
  intros Hp. rewrite caminho_ancestrais. destruct n as [e [p|] a]; simplify_eq/=. done.
Qed.

Lemma caminho_filho n p : pai n = Some p → caminho_ n = caminho_ p ++ [n].
Proof.
  intros Hp. rewrite !caminho_ancestrais. destruct n as [e [q|] a]; simplify_eq/=.
  by rewrite reverse_cons.
Qed.

Lemma caminho_length n : length (caminho_ n) = S (profundidade n).
Proof.
  rewrite caminho_ancestrais, length_reverse. unfold profundidade.
  destruct n as [e [q|] a]; simpl; lia.
Qed.

Lemma profundidade_raiz n : pai n = None → profundidade n = 0.
Proof. unfold profundidade. destruct n as [e [q|] a]; intros; simplify_eq/=. done. Qed.

Lemma profundidade_filho n p : pai n = Some p → profundidade n = S (profundidade p).
Proof.
  unfold profundidade. destruct n as [e [q|] a]; intros; simplify_eq/=.
  destruct p as [e' [q'|] a']; simpl; lia.
Qed.

Lemma caminho_last n : last (caminho_ n) = Some n.
Proof.
  destruct (pai n) as [p|] eqn:Hp.
  - rewrite (caminho_filho _ _ Hp). apply last_snoc.
  - by rewrite (caminho_raiz _ Hp).
Qed.

Lemma caminho_head n : ∃ raiz, head (caminho_ n) = Some raiz ∧ pai raiz = None.
Proof.
  induction n as [e a|e p a IH] using Nodo_chain_ind.
  - eexists. by rewrite caminho_raiz.
  - destruct IH as (r & Hr & Hp). exists r. split; [|done].
    rewrite (caminho_filho _ p) by done.
    destruct (caminho_ p); simplify_eq/=. done.
Qed.

Lemma caminho_consecutivos n i a b :
  caminho_ n !! i = Some a → caminho_ n !! S i = Some b → pai b = Some a.
Proof.
  revert i a b. induction n as [e x|e p x IH] using Nodo_chain_ind; intros i a b.
  - rewrite caminho_raiz by done. intros _ H. by destruct i.
  - rewrite (caminho_filho _ p) by done. intros Ha Hb.
    assert (Hlen := caminho_length p).
    destruct (decide (S i < length (caminho_ p))) as [Hlt|Hge].
    + rewrite lookup_app_l in Ha by lia. rewrite lookup_app_l in Hb by lia. eauto.
    + apply lookup_lt_Some in Hb as Hb'. rewrite length_app in Hb'; simpl in Hb'.
      assert (S i = length (caminho_ p)) as Hi by lia.
      rewrite Hi, list_lookup_middle in Hb by done. simplify_eq.
      rewrite lookup_app_l in Ha by lia.
      assert (last (caminho_ p) = Some a) as Hl.
      { rewrite last_lookup. rewrite <- Ha. f_equal. lia. }
      rewrite caminho_last in Hl. by simplify_eq/=.
Qed.

(** C6. Iterating [caminho_] of any node yields the nodes from the root to
    that node inclusive: it is the parent chain (follow [pai] until there
    is none) reversed, its first element has no parent, each element is the
    parent of the next, its last element is the node itself; a node with no
    parent yields exactly the one-element sequence of itself. *)
Theorem caminho_da_raiz (self : Nodo State) :
  caminho_ self = reverse (ancestrais self)
  ∧ (∃ raiz, head (caminho_ self) = Some raiz ∧ pai raiz = None)
  ∧ (∀ i a b, caminho_ self !! i = Some a → caminho_ self !! S i = Some b →
       pai b = Some a)
  ∧ last (caminho_ self) = Some self
  ∧ (pai self = None → caminho_ self = [self]).
Proof.
  split_and!.
  - apply caminho_ancestrais.
  - apply caminho_head.
  - apply caminho_consecutivos.
  - apply caminho_last.
  - apply caminho_raiz.
Qed.
End Nodo_facts.

(** ** Facts about [sorted] *)
Section sorted_facts.
Context {A : Type} (key : A → string).

Lemma inserir_Permutation r x (l : list A) : inserir key r x l ≡ₚ x :: l.
Proof.
  induction l as [|y l IH]; simpl; [done|].
  destruct (antes key r x y); [done|]. rewrite IH. apply Permutation_swap.
Qed.

Lemma sorted_Permutation r (l : list A) : sorted key r l ≡ₚ l.
Proof.
  induction l as [|x l IH]; simpl; [done|].
  rewrite inserir_Permutation. by f_equiv.
Qed.

Lemma elem_of_sorted r (l : list A) x : x ∈ sorted key r l ↔ x ∈ l.
Proof. by rewrite sorted_Permutation. Qed.

Lemma sorted_length r (l : list A) : length (sorted key r l) = length l.
Proof. by rewrite sorted_Permutation. Qed.
End sorted_facts.







Section sorted_order.
Context {A : Type} (key : A → string).




End sorted_order.

(** ** Facts about the frontier and one expansion *)
Section Busca_base.
Context {State : Type}.
Variable objetivo : State → bool.
Variable str : State → string.
Variable acoes : State → list ((unit → State) * string).
Implicit Types (n c : Nodo State) (b : list (Nodo State)) (X : gset string).
Implicit Types (e : Execucao State) (ma : (unit → State) * string).

Lemma pop_snoc b n : pop (b ++ [n]) = Some (n, b).
Proof. unfold pop. rewrite reverse_snoc. by rewrite reverse_involutive. Qed.

Lemma pop_Some b n r : pop b = Some (n, r) ↔ b = r ++ [n].
Proof.
  split; [|intros ->; apply pop_snoc].
  unfold pop. destruct (reverse b) as [|x l] eqn:Hr; [done|]. intros ?; simplify_eq.
  rewrite <- (reverse_involutive b), Hr. by rewrite reverse_cons.
Qed.

Lemma pop_None b : pop b = None ↔ b = [].
Proof.
  unfold pop. destruct (reverse b) as [|x l] eqn:Hr.
  - split; [|done]. intros _. by rewrite <- (reverse_involutive b), Hr.
  - split; [done|]. intros ->. done.
Qed.

Lemma visitar_eq c e ma :
  visitar str c e ma =
  if decide (chave str (filho c ma) ∈ explorado e)
  then mkExecucao (borda e) (explorado e) (visitados e) (S (criados e))
  else mkExecucao (borda e ++ [filho c ma]) (explorado e ∪ {[ chave str (filho c ma) ]})
                  (visitados e) (S (criados e)).
Proof. done. Qed.

Lemma foldl_visitar c e acts :
  foldl (visitar str c) e acts =
  mkExecucao (borda e ++ novos str c (explorado e) acts)
             (explorado e ∪ list_to_set (chave str <$> novos str c (explorado e) acts))
             (visitados e) (criados e + length acts).
Proof.
  revert e. induction acts as [|ma acts IH]; intros e; simpl.
  - destruct e as [b X v k]; simpl. f_equal; [by rewrite app_nil_r|set_solver|lia].
  - rewrite IH, visitar_eq.
    destruct (decide (chave str (filho c ma) ∈ explorado e)); simpl.
    + f_equal. lia.
    + f_equal; [by rewrite <- app_assoc|set_solver|lia].
Qed.

Lemma expandir_eq r c e :
  expandir str acoes r c e =
  let acts := sorted snd r (acoes (estado c)) in
  mkExecucao (borda e ++ novos str c (explorado e) acts)
             (explorado e ∪ list_to_set (chave str <$> novos str c (explorado e) acts))
             (visitados e) (criados e + length (acoes (estado c))).
Proof. unfold expandir. rewrite foldl_visitar. simpl. by rewrite sorted_length. Qed.

Lemma novos_spec c X acts f :
  f ∈ novos str c X acts → ∃ ma, ma ∈ acts ∧ f = filho c ma ∧ chave str f ∉ X.
Proof.
  revert X. induction acts as [|ma acts IH]; intros X; simpl; [by intros ?%elem_of_nil|].
  destruct (decide _) as [Hin|Hnin].
  - intros (ma' & ? & ? & ?)%IH. exists ma'. split_and!; [by right|done..].
  - intros [->|(ma' & ? & ? & ?)%IH]%elem_of_cons.
    + exists ma. split_and!; [by left|done..].
    + exists ma'. split_and!; [by right|done|set_solver].
Qed.

Lemma novos_NoDup c X acts : NoDup (chave str <$> novos str c X acts).
Proof.
  revert X. induction acts as [|ma acts IH]; intros X; simpl; [constructor|].
  destruct (decide _); [done|]. rewrite fmap_cons. constructor; [|done].
  intros (f & Hk & (ma' & _ & _ & Hf)%novos_spec)%list_elem_of_fmap. set_solver.
Qed.

Lemma novos_cobre c X acts ma :
  ma ∈ acts → chave str (filho c ma) ∈ X ∪ list_to_set (chave str <$> novos str c X acts).
Proof.
  revert X. induction acts as [|ma' acts IH]; intros X; [by intros ?%elem_of_nil|].
  simpl. intros [->|Hin]%elem_of_cons.
  - destruct (decide _); set_solver.
  - destruct (decide _); [by apply IH|].
    pose proof (IH (X ∪ {[ chave str (filho c ma') ]}) Hin). set_solver.
Qed.

Lemma novos_sublist c X acts : sublist (novos str c X acts) (filho c <$> acts).
Proof.
  revert X. induction acts as [|ma acts IH]; intros X; simpl; [done|].
  destruct (decide _); [by apply sublist_cons|by apply sublist_skip].
Qed.


Lemma tirar_Permutation l b n r : tirar l b = Some (n, r) → b ≡ₚ n :: r.
Proof.
  destruct l; simpl.
  - destruct b; intros; simplify_eq/=. done.
  - intros ->%pop_Some. by rewrite Permutation_app_comm.
Qed.

Lemma tirar_None l b : tirar l b = None ↔ b = [].
Proof. destruct l; simpl; [by destruct b|apply pop_None]. Qed.

Lemma laco_S l fuel e :
  laco objetivo str acoes l (S fuel) e =
  match tirar l (borda e) with
  | None => (Nenhum, e)
  | Some (n, r) =>
    if objetivo (estado n) then (Caminho (caminho_ n), apos_tirar e n r)
    else laco objetivo str acoes l fuel (expandir str acoes (negb l) n (apos_tirar e n r))
  end.
Proof. done. Qed.

(** Induction over the iterations of the loop: [P] holds of the state at
    the head of every iteration, [Q] of what the loop returns. *)
Lemma laco_inv (P : Execucao State → Prop) (Q : Retorno State → Execucao State → Prop) l :
  (∀ e, P e → Q SemCombustivel e) →
  (∀ e, P e → borda e = [] → Q Nenhum e) →
  (∀ e n r, P e → tirar l (borda e) = Some (n, r) → objetivo (estado n) = true →
     Q (Caminho (caminho_ n)) (apos_tirar e n r)) →
  (∀ e n r, P e → tirar l (borda e) = Some (n, r) → objetivo (estado n) = false →
     P (expandir str acoes (negb l) n (apos_tirar e n r))) →
  ∀ fuel e, P e →
    Q (laco objetivo str acoes l fuel e).1 (laco objetivo str acoes l fuel e).2.
Proof.
  intros Hfuel Hnone Hgoal Hstep fuel. induction fuel as [|fuel IH]; intros e HP.
  - by apply Hfuel.
  - rewrite laco_S. destruct (tirar l (borda e)) as [[n r]|] eqn:Ht.
    + destruct (objetivo (estado n)) eqn:Hobj; simpl; eauto.
    + simpl. apply Hnone; [done|]. by apply tirar_None in Ht.
Qed.
End Busca_base.

(** ** Invariants of a run of [buscar] *)
Section Busca_run.
Context {State : Type}.
Variable objetivo : State → bool.
Variable str : State → string.
Variable acoes : State → list ((unit → State) * string).
Implicit Types (n c : Nodo State) (X : gset string).
Implicit Types (e : Execucao State) (ma : (unit → State) * string).
Implicit Types (inicio s : State).

Local Abbreviation laco := (laco objetivo str acoes).
Local Abbreviation buscar := (buscar objetivo str acoes).
Local Abbreviation expandir := (expandir str acoes).
Local Abbreviation chave := (chave str).
Local Abbreviation novos := (novos str).
Local Abbreviation valido := (valido objetivo acoes).
Local Abbreviation expandidos := (expandidos objetivo).
Local Abbreviation contagem := (contagem objetivo str acoes).
Local Abbreviation invariante := (invariante objetivo str acoes).

(** Every result of [buscar] is a result of the loop started in the
    initial state, or the initial state itself. *)
Lemma buscar_inv (P : Execucao State → Prop)
    (Q : Retorno State → Execucao State → Prop) inicio :
  P (inicial str inicio) →
  (∀ e, P e → Q SemCombustivel e) →
  (∀ e, P e → Q Nenhum e) →
  (∀ l e n r, P e → tirar l (borda e) = Some (n, r) → objetivo (estado n) = true →
     Q (Caminho (caminho_ n)) (apos_tirar e n r)) →
  (∀ l e n r, P e → tirar l (borda e) = Some (n, r) → objetivo (estado n) = false →
     P (expandir (negb l) n (apos_tirar e n r))) →
  ∀ tipo_busca fuel,
    Q (buscar inicio tipo_busca fuel).1 (buscar inicio tipo_busca fuel).2.
Proof.
  intros H0 Hfuel Hnone Hgoal Hstep tipo_busca fuel. unfold buscar.
  destruct (String.eqb tipo_busca "largura");
    [|destruct (String.eqb tipo_busca "profundidade")].
  - apply (laco_inv objetivo str acoes P Q true); eauto.
  - apply (laco_inv objetivo str acoes P Q false); eauto.
  - simpl. eauto.
Qed.

(** *** Counting keys and nodes *)

Lemma contagem_inicial inicio : contagem (inicial str inicio).
Proof.
  unfold contagem, enfileirados, expandidos; simpl. split_and!; [set_solver| |done..].
  apply NoDup_singleton.
Qed.

Lemma contagem_tirar l e n r :
  contagem e → tirar l (borda e) = Some (n, r) →
  explorado e = list_to_set (chave <$> (visitados e ++ [n]) ++ r)
  ∧ NoDup (chave <$> (visitados e ++ [n]) ++ r).
Proof.
  intros (HX & Hnd & _) Hp%tirar_Permutation. unfold enfileirados in *.
  assert ((visitados e ++ [n]) ++ r ≡ₚ visitados e ++ borda e) as Hperm.
  { rewrite Hp, <- app_assoc. done. }
  split; [|by rewrite Hperm]. rewrite HX. apply set_eq. intros k.
  rewrite !elem_of_list_to_set. by rewrite Hperm.
Qed.

Lemma contagem_objetivo l e n r :
  contagem e → tirar l (borda e) = Some (n, r) → objetivo (estado n) = true →
  contagem (apos_tirar e n r).
Proof.
  intros He Hp Hobj. destruct (contagem_tirar _ _ _ _ He Hp) as [HX Hnd].
  pose proof (Permutation_length (tirar_Permutation _ _ _ _ Hp)) as Hlen.
  destruct He as (_ & _ & Hc & Hle). unfold contagem, enfileirados, expandidos in *; simpl.
  split_and!; [done..| |].
  - rewrite filter_app, filter_cons_False, filter_nil, app_nil_r; [done|]. by rewrite Hobj.
  - rewrite !length_app in *. simpl in *. lia.
Qed.

Lemma contagem_expandir l e n r :
  contagem e → tirar l (borda e) = Some (n, r) → objetivo (estado n) = false →
  contagem (expandir (negb l) n (apos_tirar e n r)).
Proof.
  intros He Hp Hobj. destruct (contagem_tirar _ _ _ _ He Hp) as [HX Hnd].
  pose proof (Permutation_length (tirar_Permutation _ _ _ _ Hp)) as Hlen.
  destruct He as (_ & _ & Hc & Hle). rewrite expandir_eq.
  unfold contagem, enfileirados, expandidos in *; simpl.
  pose proof (sublist_length _ _
    (novos_sublist str n (explorado e) (sorted snd (negb l) (acoes (estado n))))) as Hsub.
  rewrite length_fmap, sorted_length in Hsub.
  set (fs := novos n (explorado e) _) in *.
  split_and!.
  - rewrite HX at 1. rewrite !fmap_app, !list_to_set_app_L. set_solver.
  - rewrite app_assoc, fmap_app. apply NoDup_app. split_and!; [done| |apply novos_NoDup].
    intros k Hk (f & -> & (ma & _ & _ & Hf)%novos_spec)%list_elem_of_fmap.
    apply Hf. rewrite HX. by apply elem_of_list_to_set.
  - rewrite filter_app, filter_cons_True, filter_nil by done.
    rewrite fmap_app, sum_list_with_app. simpl. lia.
  - rewrite !length_app in *. simpl in *. lia.
Qed.

Lemma contagem_size e :
  contagem e → size (explorado e) = length (enfileirados e).
Proof.
  intros (HX & Hnd & _). rewrite HX, size_list_to_set by done. by rewrite length_fmap.
Qed.

Lemma buscar_contagem inicio tipo_busca fuel :
  contagem (buscar inicio tipo_busca fuel).2.
Proof.
  apply (buscar_inv contagem (λ _ e, contagem e));
    eauto using contagem_inicial, contagem_objetivo, contagem_expandir.
Qed.

(** C3 (amended). In every run, in either mode, the keys in the explored
    set are exactly the keys of the nodes that were put on the frontier
    (those taken from it and those still in it), these keys are pairwise
    distinct, so there are as many keys as such nodes. The number of
    nodes constructed is one for the root plus one per action of every
    expanded node, which is at least the number of keys. *)
Theorem chaves_e_nodos inicio tipo_busca fuel :
  let e := (buscar inicio tipo_busca fuel).2 in
  explorado e = list_to_set (chave <$> enfileirados e)
  ∧ NoDup (chave <$> enfileirados e)
  ∧ size (explorado e) = length (enfileirados e)
  ∧ criados e = 1 + sum_list ((λ n, length (acoes (estado n))) <$> expandidos e)
  ∧ size (explorado e) ≤ criados e.
Proof.
  intros e. pose proof (buscar_contagem inicio tipo_busca fuel) as Hc.
  pose proof (contagem_size _ Hc) as Hsz. destruct Hc as (HX & Hnd & Hc & Hle).
  fold e in HX, Hnd, Hc, Hle, Hsz. split_and!; [done..|lia].
Qed.

(** C10. For a [tipo_busca] that is neither 'largura' nor 'profundidade'
    [buscar] returns [None] at once: no node was taken from the frontier,
    which still holds the root alone, the only node constructed, and the
    explored set holds the key of the start state alone. *)
Theorem buscar_tipo_desconhecido inicio (tipo_busca : string) fuel :
  tipo_busca ≠ "largura" → tipo_busca ≠ "profundidade" →
  buscar inicio tipo_busca fuel =
    (Nenhum, mkExecucao [novo_nodo inicio None None] {[ str inicio ]} [] 1).
Proof.
  intros H1 H2. unfold buscar.
  apply String.eqb_neq in H1, H2. by rewrite H1, H2.
Qed.

(** *** Shape of the returned path *)

Lemma valido_novos inicio c X acts f :
  valido inicio c → objetivo (estado c) = false →
  (∀ ma, ma ∈ acts → ma ∈ acoes (estado c)) →
  f ∈ novos c X acts → valido inicio f.
Proof.
  intros Hc Hobj Hacts (ma & Hma & -> & _)%novos_spec. constructor; auto.
Qed.

Lemma buscar_valido inicio tipo_busca fuel p :
  (buscar inicio tipo_busca fuel).1 = Caminho p →
  ∃ n, p = caminho_ n ∧ valido inicio n ∧ objetivo (estado n) = true.
Proof.
  revert p.
  apply (buscar_inv (λ e, Forall (valido inicio) (borda e))
           (λ r e, ∀ p, r = Caminho p →
              ∃ n, p = caminho_ n ∧ valido inicio n ∧ objetivo (estado n) = true));
    try done.
  - repeat constructor.
  - intros l e n r Hb Hp Hobj p [= <-]. exists n. split_and!; [done| |done].
    eapply Forall_forall; [exact Hb|]. rewrite (tirar_Permutation _ _ _ _ Hp). by left.
  - intros l e n r Hb Hp Hobj. rewrite expandir_eq. simpl.
    rewrite (tirar_Permutation _ _ _ _ Hp) in Hb. apply Forall_cons in Hb as [Hn Hr].
    apply Forall_app. split; [done|]. apply Forall_forall. intros f Hf.
    eapply valido_novos; [done..| |exact Hf]. intros ma. by rewrite elem_of_sorted.
Qed.

Lemma valido_caminho inicio n :
  valido inicio n →
  (∃ raiz, caminho_ n !! 0 = Some raiz ∧ raiz = novo_nodo inicio None None)
  ∧ (∀ i a b, caminho_ n !! i = Some a → caminho_ n !! S i = Some b →
       pai b = Some a ∧ ∃ ma, ma ∈ acoes (estado a) ∧ b = filho a ma)
  ∧ (∀ i a, caminho_ n !! i = Some a → S i < length (caminho_ n) →
       objetivo (estado a) = false).
Proof.
  induction 1 as [|c ma Hc (Hraiz & Hpasso & Hobj) Hc_obj Hma].
  - rewrite caminho_raiz by done. split_and!.
    + by eexists.
    + intros i a b _ Hb. by destruct i.
    + intros [|i] a; simpl; intros; simplify_eq/=; lia.
  - rewrite (caminho_filho (filho c ma) c) by done.
    assert (Hlen := caminho_length c). assert (Hlast := caminho_last c).
    rewrite last_lookup, Hlen in Hlast. simpl in Hlast. split_and!.
    + destruct Hraiz as (raiz & H0 & ->). eexists. split; [|done].
      by apply lookup_app_l_Some.
    + intros i a b Ha Hb.
      apply lookup_lt_Some in Hb as Hb'. rewrite length_app in Hb'; simpl in Hb'.
      destruct (decide (S i < length (caminho_ c))) as [Hlt|Hge].
      * rewrite lookup_app_l in Ha by lia. rewrite lookup_app_l in Hb by lia. eauto.
      * assert (S i = length (caminho_ c)) as Hi by lia.
        rewrite Hi, list_lookup_middle in Hb by done.
        rewrite lookup_app_l in Ha by lia.
        assert (i = profundidade c) as -> by lia. simplify_eq. eauto.
    + intros i a Ha Hi. rewrite length_app in Hi; simpl in Hi.
      rewrite lookup_app_l in Ha by lia.
      destruct (decide (S i < length (caminho_ c))) as [Hlt|Hge]; [eauto|].
      assert (i = profundidade c) as -> by lia. by simplify_eq.
Qed.

(** C4. A path [n0, ..., nk] returned by [buscar], in either mode: [n0]
    is the root, built for the start state with the marker "Z" as action
    and no parent; every later node is the child built from its
    predecessor for one action listed by the predecessor's [acoes] (its
    state is what that action's [movimento()] returns, its action the
    label, its parent the predecessor); and a node of the path satisfies
    the goal test if and only if it is the last one. *)
Theorem caminho_valido inicio tipo_busca fuel p :
  (buscar inicio tipo_busca fuel).1 = Caminho p →
  (∃ n0, p !! 0 = Some n0 ∧ estado n0 = inicio ∧ pai n0 = None ∧ acao n0 = "Z")
  ∧ (∀ i a b, p !! i = Some a → p !! S i = Some b →
       ∃ ma, ma ∈ acoes (estado a)
             ∧ estado b = ma.1 () ∧ acao b = ma.2 ∧ pai b = Some a)
  ∧ (∀ i a, p !! i = Some a → (objetivo (estado a) = true ↔ S i = length p)).
Proof.
  intros (n & -> & Hn & Hobj)%buscar_valido.
  destruct (valido_caminho _ _ Hn) as ((raiz & H0 & ->) & Hpasso & Hnao).
  split_and!.
  - by eexists.
  - intros i a b Ha Hb. destruct (Hpasso _ _ _ Ha Hb) as (Hp & ma & Hma & ->).
    by exists ma.
  - intros i a Ha. apply lookup_lt_Some in Ha as Hi.
    destruct (decide (S i = length (caminho_ n))) as [Heq|Hne].
    + split; [done|]. intros _.
      assert (last (caminho_ n) = Some a) as Hl.
      { rewrite last_lookup, <- Ha. f_equal. lia. }
      rewrite caminho_last in Hl. by simplify_eq.
    + split; [|done]. intros Ht. rewrite (Hnao i a) in Ht by (done || lia). done.
Qed.
(** *** Reachable states and termination *)

Lemma valido_alcancavel inicio n :
  valido inicio n → alcancavel_em acoes inicio (profundidade n) (estado n).
Proof.
  induction 1 as [|c ma Hc IH Hobj Hma].
  - rewrite profundidade_raiz by done. constructor.
  - rewrite (profundidade_filho (filho c ma) c) by done. by econstructor.
Qed.

Lemma invariante_inicial inicio : invariante inicio (inicial str inicio).
Proof. split; [apply contagem_inicial|]. repeat constructor. Qed.

Lemma invariante_objetivo inicio l e n r :
  invariante inicio e → tirar l (borda e) = Some (n, r) → objetivo (estado n) = true →
  invariante inicio (apos_tirar e n r).
Proof.
  intros [Hc Hv] Hp Hobj. split; [by eapply contagem_objetivo|].
  unfold enfileirados in *; simpl.
  rewrite (tirar_Permutation _ _ _ _ Hp) in Hv.
  rewrite <- app_assoc. done.
Qed.

Lemma invariante_expandir inicio l e n r :
  invariante inicio e → tirar l (borda e) = Some (n, r) → objetivo (estado n) = false →
  invariante inicio (expandir (negb l) n (apos_tirar e n r)).
Proof.
  intros [Hc Hv] Hp Hobj. split; [by eapply contagem_expandir|].
  rewrite expandir_eq. unfold enfileirados in *; simpl.
  rewrite (tirar_Permutation _ _ _ _ Hp) in Hv.
  apply Forall_app in Hv as [Hv [Hn Hr]%Forall_cons].
  rewrite !Forall_app. split_and!; [done|by constructor|done|].
  apply Forall_forall. intros f Hf.
  eapply valido_novos; [done..| |exact Hf]. intros ma. by rewrite elem_of_sorted.
Qed.

Lemma buscar_invariante inicio tipo_busca fuel :
  invariante inicio (buscar inicio tipo_busca fuel).2.
Proof.
  apply (buscar_inv (invariante inicio) (λ _ e, invariante inicio e));
    eauto using invariante_inicial, invariante_objetivo, invariante_expandir.
Qed.

Section finito.
Variable inicio : State.
Variable U : gset string.
Hypothesis alcancavel_U : ∀ s, alcancavel acoes inicio s → str s ∈ U.

Lemma invariante_explorado e : invariante inicio e → explorado e ⊆ U.
Proof using alcancavel_U.
  intros [(HX & _) Hv] k. rewrite HX, elem_of_list_to_set.
  intros (n & -> & Hn)%list_elem_of_fmap. apply alcancavel_U.
  exists (profundidade n). apply valido_alcancavel.
  by eapply Forall_forall in Hv.
Qed.

Lemma invariante_limite e :
  invariante inicio e → length (visitados e) + length (borda e) ≤ size U.
Proof using alcancavel_U.
  intros He. pose proof (subseteq_size _ _ (invariante_explorado e He)) as Hsz.
  destruct He as [Hc _]. rewrite (contagem_size _ Hc) in Hsz.
  unfold enfileirados in Hsz. by rewrite length_app in Hsz.
Qed.

(** Every iteration takes one node; the nodes taken and waiting never
    outnumber [U], so [size U - length visitados] iterations suffice. *)
Lemma laco_termina l fuel e :
  invariante inicio e → size U - length (visitados e) < fuel →
  (laco l fuel e).1 ≠ SemCombustivel.
Proof using alcancavel_U.
  revert e. induction fuel as [|fuel IH]; intros e He Hfuel; [lia|].
  rewrite laco_S. destruct (tirar l (borda e)) as [[n r]|] eqn:Hp; [|done].
  destruct (objetivo (estado n)) eqn:Hobj; [done|].
  pose proof (invariante_expandir _ _ _ _ _ He Hp Hobj) as He'.
  apply IH; [done|].
  pose proof (invariante_limite _ He') as Hlim.
  rewrite expandir_eq in Hlim |- *. simpl in *. rewrite length_app in *. simpl in *. lia.
Qed.

Lemma buscar_nao_esgota tipo_busca fuel :
  size U < fuel → (buscar inicio tipo_busca fuel).1 ≠ SemCombustivel.
Proof using alcancavel_U.
  intros Hfuel. unfold buscar.
  destruct (String.eqb tipo_busca "largura");
    [|destruct (String.eqb tipo_busca "profundidade")]; [| |done].
  - apply laco_termina; [apply invariante_inicial|simpl; lia].
  - apply laco_termina; [apply invariante_inicial|simpl; lia].
Qed.
End finito.

(** C7. When the keys of the states reachable from the start state all lie
    in a finite set [U], [buscar] terminates in both modes: run with more
    than [size U] iterations allowed it returns a path or [None]. The
    reason is the one given: the nodes put on the frontier have pairwise
    distinct keys, the explored set has exactly one key per such node, and
    so the loop ran at most [size U] times (one node is taken per
    iteration). *)
Theorem buscar_termina inicio (U : gset string) tipo_busca fuel :
  (∀ s, alcancavel acoes inicio s → str s ∈ U) → size U < fuel →
  (buscar inicio tipo_busca fuel).1 ≠ SemCombustivel
  ∧ NoDup (chave <$> enfileirados (buscar inicio tipo_busca fuel).2)
  ∧ size (explorado (buscar inicio tipo_busca fuel).2)
    = length (enfileirados (buscar inicio tipo_busca fuel).2)
  ∧ length (visitados (buscar inicio tipo_busca fuel).2) ≤ size U.
Proof.
  intros HU Hfuel. pose proof (buscar_invariante inicio tipo_busca fuel) as He.
  pose proof (invariante_limite inicio U HU _ He) as Hlim.
  destruct He as [Hc _]. split_and!.
  - by apply (buscar_nao_esgota inicio U).
  - apply Hc.
  - by apply contagem_size.
  - lia.
Qed.

(** *** No solution *)

Lemma laco_resultado l fuel e :
  (∃ n, (laco l fuel e).1 = Caminho (caminho_ n))
  ∨ ((laco l fuel e).1 = Nenhum ∧ borda (laco l fuel e).2 = [])
  ∨ (laco l fuel e).1 = SemCombustivel.
Proof.
  apply (laco_inv objetivo str acoes (λ _, True)
           (λ r e', (∃ n, r = Caminho (caminho_ n)) ∨ (r = Nenhum ∧ borda e' = [])
                    ∨ r = SemCombustivel)); eauto.
Qed.

Lemma buscar_modo inicio tipo_busca fuel :
  tipo_busca = "largura" ∨ tipo_busca = "profundidade" →
  ∃ l, buscar inicio tipo_busca fuel = laco l fuel (inicial str inicio).
Proof. intros [->| ->]; [by exists true|by exists false]. Qed.


(** Replaying a list of labels gives a state reached by as many actions. *)
Lemma seguir_alcancavel inicio rotulos k s s' :
  alcancavel_em acoes inicio k s → seguir acoes rotulos s = Some s' →
  alcancavel_em acoes inicio (k + length rotulos) s'.
Proof.
  revert k s. induction rotulos as [|a ls IH]; intros k s Hk Hs; simpl in *.
  - simplify_eq. by rewrite Nat.add_0_r.
  - destruct (find _ (acoes s)) as [ma|] eqn:Hf; [|done].
    apply find_some in Hf as [Hin _].
    replace (k + S (length ls)) with (S k + length ls) by lia.
    eapply IH; [|exact Hs]. apply (alcancavel_passo acoes inicio k s ma); [done|].
    by apply list_elem_of_In.
Qed.

(** The loop that keeps the explored keys in a list gives the result of
    [laco]. *)
Lemma visitar_lista_eq n (e : Execucao State) (X : list string) ma :
  (∀ k, k ∈ X ↔ k ∈ explorado e) →
  (visitar_lista str n (borda e, X) ma).1 = borda (visitar str n e ma)
  ∧ ∀ k, k ∈ (visitar_lista str n (borda e, X) ma).2 ↔ k ∈ explorado (visitar str n e ma).
Proof.
  intros HX. unfold visitar_lista, visitar. cbn [fst snd].
  destruct (existsb _ X) eqn:Hex.
  - apply existsb_exists in Hex as (k & Hk%list_elem_of_In & ->%String.eqb_eq).
    rewrite decide_True by (by apply HX). done.
  - rewrite decide_False.
    + split; [done|]. intros k. cbn [fst snd explorado]. rewrite elem_of_cons, HX. set_solver.
    + intros Hin%HX. apply not_true_iff_false in Hex. apply Hex, existsb_exists.
      eexists. split; [by apply list_elem_of_In|]. apply String.eqb_refl.
Qed.

Lemma foldl_visitar_lista n acts (e : Execucao State) (X : list string) :
  (∀ k, k ∈ X ↔ k ∈ explorado e) →
  (foldl (visitar_lista str n) (borda e, X) acts).1 = borda (foldl (visitar str n) e acts)
  ∧ ∀ k, k ∈ (foldl (visitar_lista str n) (borda e, X) acts).2
         ↔ k ∈ explorado (foldl (visitar str n) e acts).
Proof.
  revert e X. induction acts as [|ma acts IH]; intros e X HX; [done|]. simpl.
  destruct (visitar_lista_eq n e X ma HX) as [Hb HX'].
  destruct (visitar_lista str n (borda e, X) ma) as [b' X']. simpl in Hb, HX'. subst b'.
  by apply IH.
Qed.

Lemma laco_lista_eq l fuel (e : Execucao State) (X : list string) :
  (∀ k, k ∈ X ↔ k ∈ explorado e) →
  laco_lista objetivo str acoes l fuel (borda e) X = (laco l fuel e).1.
Proof.
  revert e X. induction fuel as [|fuel IH]; intros e X HX; [done|]. simpl.
  destruct (tirar l (borda e)) as [[n b']|]; [|done].
  destruct (objetivo (estado n)); [done|].
  destruct (foldl_visitar_lista n (sorted snd (negb l) (acoes (estado n)))
              (apos_tirar e n b') X HX) as [Hb HX'].
  simpl in Hb. rewrite Hb. by apply IH.
Qed.

(** Reading the length of the path breadth-first search returns off a run
    of [laco_lista]. *)
Lemma buscar_largura_lista inicio fuel (m : nat) :
  match laco_lista objetivo str acoes true fuel
          [novo_nodo inicio None None] [str inicio] with
  | Caminho p => Some (length p)
  | _ => None
  end = Some (S m) →
  ∃ p, (buscar inicio "largura" fuel).1 = Caminho p ∧ length p - 1 = m.
Proof.
  change (buscar inicio "largura" fuel) with (laco true fuel (inicial str inicio)).
  pose proof (laco_lista_eq true fuel (inicial str inicio) [str inicio]) as Heq.
  change (borda (inicial str inicio)) with [novo_nodo inicio None None] in Heq.
  rewrite Heq by (intros k; unfold inicial; simpl; set_solver). clear Heq.
  destruct (laco true fuel (inicial str inicio)).1 as [p| |]; [|done..].
  intros [= Hp]. exists p. split; [done|lia].
Qed.
End Busca_run.

(** ** Order in which the children of a node are taken *)
Section Busca_ordem.
Context {State : Type}.
Variable objetivo : State → bool.
Variable str : State → string.
Variable acoes : State → list ((unit → State) * string).
Implicit Types (n c f g : Nodo State) (X : gset string).
Implicit Types (e : Execucao State) (ma : (unit → State) * string).

Local Abbreviation laco := (laco objetivo str acoes).
Local Abbreviation expandir := (expandir str acoes).
Local Abbreviation chave := (chave str).
Local Abbreviation novos := (novos str).





End Busca_ordem.

(** ** Breadth-first search returns a shortest path *)
Section Busca_largura.
Context {State : Type}.
Variable objetivo : State → bool.
Variable str : State → string.
Variable acoes : State → list ((unit → State) * string).
Variable inicio : State.
Implicit Types (n c m f : Nodo State) (X : gset string).
Implicit Types (e : Execucao State) (ma : (unit → State) * string) (s : State).

Local Abbreviation laco := (laco objetivo str acoes).
Local Abbreviation buscar := (buscar objetivo str acoes).
Local Abbreviation expandir := (expandir str acoes).
Local Abbreviation chave := (chave str).
Local Abbreviation novos := (novos str).
Local Abbreviation valido := (valido objetivo acoes inicio).
Local Abbreviation invariante := (invariante objetivo str acoes inicio).
Local Abbreviation alcancavel_em := (alcancavel_em acoes inicio).
Local Abbreviation alcancavel := (alcancavel acoes inicio).
Local Abbreviation fechado := (fechado acoes).
Local Abbreviation inv_largura := (inv_largura objetivo str acoes inicio).

(** Distinct reachable states have distinct keys. *)
Hypothesis chave_inj :
  ∀ s1 s2, alcancavel s1 → alcancavel s2 → str s1 = str s2 → s1 = s2.

Lemma valido_alcancavel' n : valido n → alcancavel (estado n).
Proof. intros Hn. eexists. eapply valido_alcancavel. exact Hn. Qed.

Lemma inv_largura_inicial : inv_largura (inicial str inicio).
Proof.
  split_and!.
  - apply invariante_inicial.
  - unfold enfileirados; simpl. by left.
  - constructor.
  - exists 0, [novo_nodo inicio None None], []. simpl. split_and!; try done.
    repeat constructor.
  - intros c ma Hc. simpl in Hc. by apply elem_of_nil in Hc.
Qed.

Lemma niveis_borda d e n :
  niveis d e → n ∈ borda e → d ≤ profundidade n ≤ S d.
Proof.
  intros (A & B & -> & HA & HB & _) [Hn|Hn]%elem_of_app.
  - eapply Forall_forall in HA; [|exact Hn]. simpl in HA. lia.
  - eapply Forall_forall in HB; [|exact Hn]. simpl in HB. lia.
Qed.

Lemma niveis_cabeca d e n r : niveis d e → borda e = n :: r → profundidade n = d.
Proof.
  intros (A & B & Hb & HA & HB & HAB & _) Hnr. rewrite Hnr in Hb.
  destruct A as [|a A].
  - rewrite HAB in Hb by done. done.
  - simplify_eq/=. by apply Forall_cons in HA as [? _].
Qed.

Lemma niveis_enfileirados d e m :
  niveis d e → m ∈ enfileirados e → profundidade m ≤ S d.
Proof.
  intros Hniv [Hm|Hm]%elem_of_app.
  - destruct Hniv as (A & B & _ & _ & _ & _ & Hv).
    eapply Forall_forall in Hv; [|exact Hm]. simpl in Hv. lia.
  - by apply (niveis_borda d e m Hniv).
Qed.

Lemma niveis_expandir d e n r :
  niveis d e → borda e = n :: r →
  ∃ d', niveis d' (expandir false n (apos_tirar e n r)).
Proof.
  intros Hniv Hnr. pose proof (niveis_cabeca _ _ _ _ Hniv Hnr) as Hd.
  destruct Hniv as (A & B & Hb & HA & HB & HAB & Hv). rewrite Hnr in Hb.
  rewrite expandir_eq. simpl.
  set (fs := novos n (explorado e) _).
  assert (Forall (λ f, profundidade f = S d) fs) as Hfs.
  { apply Forall_forall. intros f (ma & _ & -> & _)%novos_spec.
    rewrite (profundidade_filho (filho n ma) n) by done. by rewrite Hd. }
  clearbody fs. destruct A as [|a A]; [by rewrite HAB in Hb|]. simplify_eq/=.
  apply Forall_cons in HA as [_ HA].
  destruct A as [|a' A].
  - exists (S (profundidade a)), (B ++ fs), []. simpl. split_and!.
    + by rewrite app_nil_r.
    + by apply Forall_app.
    + constructor.
    + done.
    + apply Forall_app. split; [|by repeat constructor; lia].
      eapply Forall_impl; [exact Hv|]. simpl. lia.
  - exists (profundidade a), (a' :: A), (B ++ fs). simpl. split_and!.
    + by rewrite <- app_assoc.
    + done.
    + by apply Forall_app.
    + done.
    + apply Forall_app. split; [done|]. by repeat constructor.
Qed.

Lemma inv_largura_expandir e n r :
  inv_largura e → borda e = n :: r → objetivo (estado n) = false →
  inv_largura (expandir false n (apos_tirar e n r)).
Proof using chave_inj.
  intros (Hinv & Hraiz & Hnao & [d Hniv] & Hfech) Hnr Hobj.
  assert (tirar true (borda e) = Some (n, r)) as Hp by (by rewrite Hnr).
  pose proof (invariante_expandir objetivo str acoes inicio true e n r Hinv Hp Hobj) as Hinv'.
  pose proof (niveis_cabeca _ _ _ _ Hniv Hnr) as Hd.
  split_and!; [done|..].
  - rewrite expandir_eq. unfold enfileirados in *; simpl. rewrite Hnr in Hraiz. set_solver.
  - rewrite expandir_eq; simpl. apply Forall_app. split; [done|]. by repeat constructor.
  - by eapply niveis_expandir.
  - destruct Hinv as [(HX & _) Hval]. destruct Hinv' as [_ Hval'].
    assert (∀ m, m ∈ enfileirados e → m ∈ enfileirados (expandir false n (apos_tirar e n r)))
      as Hsub.
    { intros m. rewrite expandir_eq. unfold enfileirados; simpl. rewrite Hnr. set_solver. }
    intros c ma Hc Hma. rewrite expandir_eq in Hc; simpl in Hc.
    apply elem_of_app in Hc as [Hc|Hc].
    { destruct (Hfech c ma Hc Hma) as (m & Hm & ? & ?). exists m. auto. }
    apply list_elem_of_singleton in Hc as ->.
    assert (valido n) as Hn.
    { eapply Forall_forall in Hval; [exact Hval|]. unfold enfileirados. rewrite Hnr. set_solver. }
    assert (alcancavel (ma.1 ())) as Hreach.
    { apply (valido_alcancavel' (filho n ma)). by constructor. }
    pose proof (novos_cobre str n (explorado e) (sorted snd false (acoes (estado n))) ma) as Hk.
    rewrite elem_of_sorted in Hk. specialize (Hk Hma).
    apply elem_of_union in Hk as [Hk|Hk].
    + rewrite HX in Hk. apply elem_of_list_to_set in Hk.
      apply list_elem_of_fmap in Hk as (m & Hkm & Hm).
      exists m. split_and!; [by apply Hsub| |].
      * apply chave_inj; [|done|done]. apply valido_alcancavel'.
        by eapply Forall_forall in Hval.
      * rewrite Hd. by eapply niveis_enfileirados.
    + apply elem_of_list_to_set in Hk.
      apply list_elem_of_fmap in Hk as (f & Hkf & Hf).
      assert (f ∈ enfileirados (expandir false n (apos_tirar e n r))) as Hf'.
      { rewrite expandir_eq. unfold enfileirados; simpl. set_solver. }
      exists f. split_and!; [done| |].
      * apply chave_inj; [|done|done]. apply valido_alcancavel'.
        by eapply Forall_forall in Hval'.
      * apply novos_spec in Hf as (ma' & _ & -> & _).
        by rewrite (profundidade_filho (filho n ma') n).
Qed.

(** Along any sequence of moves from the start state, a node of the run is
    met no deeper than the number of moves made: a node of the state
    reached, or before that a node still on the frontier. *)
Lemma inv_largura_alcanca e k s :
  inv_largura e → alcancavel_em k s →
  ∃ m, m ∈ enfileirados e ∧ profundidade m ≤ k ∧ (estado m = s ∨ m ∈ borda e).
Proof.
  clear chave_inj. intros (Hinv & Hraiz & Hnao & [d Hniv] & Hfech).
  induction 1 as [|k s ma Hs (m & Hm & Hk & Hcase) Hma].
  - exists (novo_nodo inicio None None). split_and!; [done| |by left].
    by rewrite profundidade_raiz.
  - destruct Hcase as [<-|Hb]; [|exists m; split_and!; [done|lia|by right]].
    unfold enfileirados in Hm. apply elem_of_app in Hm as [Hv|Hb];
      [|exists m; split_and!; [unfold enfileirados; set_solver|lia|by right]].
    destruct (Hfech m ma Hv Hma) as (m' & Hm' & Hst & Hd).
    exists m'. split_and!; [done|lia|by left].
Qed.

Lemma inv_largura_objetivo e n r k s :
  inv_largura e → borda e = n :: r →
  alcancavel_em k s → objetivo s = true → profundidade n ≤ k.
Proof.
  intros He Hnr Hs Hobj.
  destruct (inv_largura_alcanca e k s He Hs) as (m & Hm & Hk & Hcase).
  destruct He as (Hinv & Hraiz & Hnao & [d Hniv] & Hfech).
  pose proof (niveis_cabeca _ _ _ _ Hniv Hnr) as Hd.
  assert (m ∈ borda e) as Hb.
  { destruct Hcase as [<-|?]; [|done].
    unfold enfileirados in Hm. apply elem_of_app in Hm as [Hv|?]; [|done].
    eapply Forall_forall in Hnao; [|exact Hv]. simpl in Hnao. congruence. }
  pose proof (niveis_borda _ _ _ Hniv Hb). lia.
Qed.

Lemma laco_largura_minimo fuel e p :
  inv_largura e → (laco true fuel e).1 = Caminho p →
  ∃ n, p = caminho_ n ∧ valido n ∧ objetivo (estado n) = true
       ∧ ∀ k s, alcancavel_em k s → objetivo s = true → profundidade n ≤ k.
Proof using chave_inj.
  intros He. revert p.
  apply (laco_inv objetivo str acoes inv_largura
           (λ r _, ∀ p, r = Caminho p →
              ∃ n, p = caminho_ n ∧ valido n ∧ objetivo (estado n) = true
                   ∧ ∀ k s, alcancavel_em k s → objetivo s = true → profundidade n ≤ k)
           true); try done.
  - intros e' n r He' Hp Hobj p [= <-].
    assert (borda e' = n :: r) as Hnr by (by destruct (borda e'); simplify_eq/=).
    exists n. split_and!; [done| |done|].
    + destruct He' as ([_ Hval] & _). eapply Forall_forall in Hval; [exact Hval|].
      unfold enfileirados. rewrite Hnr. set_solver.
    + intros k s. by eapply inv_largura_objetivo.
  - intros e' n r He' Hp Hobj.
    assert (borda e' = n :: r) as Hnr by (by destruct (borda e'); simplify_eq/=).
    by apply inv_largura_expandir.
Qed.
End Busca_largura.

(** C1. Breadth-first search returns a shortest path. Provided distinct
    states reachable from the start state have distinct keys, a path [p]
    returned by [buscar] in mode 'largura' ends in a goal state reached
    from the start state by [length p - 1] actions, and no sequence of
    actions from the start state to any goal state is shorter. *)
Theorem largura_caminho_minimo {State : Type} (objetivo : State → bool)
    (str : State → string) (acoes : State → list ((unit → State) * string))
    (inicio : State) (fuel : nat) (p : list (Nodo State)) :
  (∀ s1 s2, alcancavel acoes inicio s1 → alcancavel acoes inicio s2 →
     str s1 = str s2 → s1 = s2) →
  (buscar objetivo str acoes inicio "largura" fuel).1 = Caminho p →
  (∃ g, last p = Some g ∧ objetivo (estado g) = true
        ∧ alcancavel_em acoes inicio (length p - 1) (estado g))
  ∧ (∀ k s, alcancavel_em acoes inicio k s → objetivo s = true → length p - 1 ≤ k).
Proof.
  intros Hinj Hp. change (buscar objetivo str acoes inicio "largura" fuel)
    with (laco objetivo str acoes true fuel (inicial str inicio)) in Hp.
  apply (laco_largura_minimo objetivo str acoes inicio Hinj) in Hp
    as (n & -> & Hn & Hobj & Hmin); [|apply inv_largura_inicial].
  rewrite caminho_length. replace (S (profundidade n) - 1) with (profundidade n) by lia.
  split; [|done]. exists n. split_and!; [apply caminho_last|done|].
  eapply valido_alcancavel. exact Hn.
Qed.

(** ** What a finished search has covered *)
Section Busca_completa.
Context {State : Type}.
Variable objetivo : State → bool.
Variable str : State → string.
Variable acoes : State → list ((unit → State) * string).
Variable inicio : State.
Implicit Types (n c m f : Nodo State) (X : gset string).
Implicit Types (e : Execucao State) (ma : (unit → State) * string) (s : State).

Local Abbreviation laco := (laco objetivo str acoes).
Local Abbreviation buscar := (buscar objetivo str acoes).
Local Abbreviation expandir := (expandir str acoes).
Local Abbreviation chave := (chave str).
Local Abbreviation novos := (novos str).
Local Abbreviation valido := (valido objetivo acoes inicio).
Local Abbreviation invariante := (invariante objetivo str acoes inicio).
Local Abbreviation alcancavel_em := (alcancavel_em acoes inicio).
Local Abbreviation alcancavel := (alcancavel acoes inicio).
Local Abbreviation fechado_chaves := (fechado_chaves objetivo str acoes).
Local Abbreviation inv_cobertura := (inv_cobertura objetivo str acoes inicio).
Local Abbreviation inv_cabeca := (inv_cabeca objetivo str acoes inicio).

Lemma inv_cabeca_inicial : inv_cabeca (inicial str inicio).
Proof.
  split; [split_and!|constructor].
  - apply invariante_inicial.
  - intros c ma Hc. by apply elem_of_nil in Hc.
  - intros n p Hn Hp. unfold enfileirados in Hn. simpl in Hn.
    apply list_elem_of_singleton in Hn as ->. done.
  - simpl. set_solver.
Qed.

Lemma enfileirados_tirar l e n r x :
  tirar l (borda e) = Some (n, r) →
  x ∈ enfileirados (apos_tirar e n r) ↔ x ∈ enfileirados e.
Proof.
  intros Hp%tirar_Permutation. unfold enfileirados. simpl.
  rewrite Hp, <- app_assoc. done.
Qed.

Lemma inv_cobertura_objetivo l e n r :
  inv_cabeca e → tirar l (borda e) = Some (n, r) → objetivo (estado n) = true →
  inv_cobertura (apos_tirar e n r).
Proof.
  intros [(Hinv & Hfech & Hpais & Hraiz) Hnao] Hp Hobj. split_and!.
  - by eapply invariante_objetivo.
  - intros c ma Hc Hc_obj Hma. simpl in *.
    apply elem_of_app in Hc as [Hc|Hc]; [by eapply Hfech|].
    apply list_elem_of_singleton in Hc as ->. congruence.
  - intros x p Hx Hpx. rewrite (enfileirados_tirar _ _ _ _ _ Hp) in Hx.
    simpl. apply elem_of_app. left. by eapply Hpais.
  - done.
Qed.

Lemma inv_cabeca_expandir l e n r :
  inv_cabeca e → tirar l (borda e) = Some (n, r) → objetivo (estado n) = false →
  inv_cabeca (expandir (negb l) n (apos_tirar e n r)).
Proof.
  intros [(Hinv & Hfech & Hpais & Hraiz) Hnao] Hp Hobj. split; [split_and!|].
  - by eapply invariante_expandir.
  - rewrite expandir_eq. intros c ma Hc Hc_obj Hma. simpl in *.
    apply elem_of_app in Hc as [Hc|Hc].
    + apply elem_of_union. left. by eapply Hfech.
    + apply list_elem_of_singleton in Hc as ->.
      apply novos_cobre. by rewrite elem_of_sorted.
  - rewrite expandir_eq. unfold pais_visitados, enfileirados. simpl. intros x p Hx Hpx.
    rewrite app_assoc in Hx. apply elem_of_app in Hx as [Hx|Hx].
    + apply elem_of_app. left. eapply Hpais; [|exact Hpx].
      by apply (enfileirados_tirar _ _ _ _ _ Hp).
    + apply novos_spec in Hx as (ma & _ & -> & _). simpl in Hpx. simplify_eq.
      set_solver.
  - rewrite expandir_eq. simpl. set_solver.
  - rewrite expandir_eq. simpl. apply Forall_app. split; [done|]. by repeat constructor.
Qed.

Lemma buscar_inv_cobertura tipo_busca fuel :
  inv_cobertura (buscar inicio tipo_busca fuel).2
  ∧ ((buscar inicio tipo_busca fuel).1 = Nenhum →
     Forall (λ c, objetivo (estado c) = false) (visitados (buscar inicio tipo_busca fuel).2))
  ∧ (∀ p, (buscar inicio tipo_busca fuel).1 = Caminho p →
       ∃ n, p = caminho_ n ∧ n ∈ visitados (buscar inicio tipo_busca fuel).2).
Proof.
  apply (buscar_inv objetivo str acoes inv_cabeca
           (λ r e, inv_cobertura e
                   ∧ (r = Nenhum → Forall (λ c, objetivo (estado c) = false) (visitados e))
                   ∧ (∀ p, r = Caminho p → ∃ n, p = caminho_ n ∧ n ∈ visitados e))).
  - apply inv_cabeca_inicial.
  - by intros e [? ?].
  - by intros e [? ?].
  - intros l e n r He Hp Hobj. split_and!; [by eapply inv_cobertura_objetivo|done|].
    intros p [= <-]. exists n. split; [done|]. simpl. set_solver.
  - intros l e n r. apply inv_cabeca_expandir.
Qed.

(** *** The returned path *)

Lemma caminho_profundidade n i x : caminho_ n !! i = Some x → profundidade x = i.
Proof.
  revert i x. induction n as [e a|e p a IH] using Nodo_chain_ind; intros i x.
  - rewrite caminho_raiz by done. destruct i; [|done]. intros [= <-].
    by rewrite profundidade_raiz.
  - rewrite (caminho_filho _ p) by done. intros Hx.
    assert (Hlen := caminho_length p).
    apply lookup_app_Some in Hx as [Hx|[Hi Hx]]; [by apply IH|].
    apply list_lookup_singleton_Some in Hx as [Hi' <-].
    rewrite (profundidade_filho _ p) by done. lia.
Qed.

Lemma caminho_NoDup n : NoDup (caminho_ n).
Proof.
  apply NoDup_alt. intros i j x Hi Hj.
  apply caminho_profundidade in Hi, Hj. congruence.
Qed.

Lemma caminho_enfileirado e n x :
  pais_visitados e → n ∈ enfileirados e → x ∈ caminho_ n → x ∈ enfileirados e.
Proof.
  intros Hpais. revert x. induction n as [s a|s p a IH] using Nodo_chain_ind; intros x Hn.
  - rewrite caminho_raiz by done. by intros ->%list_elem_of_singleton.
  - rewrite (caminho_filho _ p) by done.
    intros [Hx| ->%list_elem_of_singleton]%elem_of_app; [|done].
    apply IH; [|done]. unfold enfileirados. apply elem_of_app. left.
    by eapply Hpais.
Qed.

Lemma chave_unica (l : list (Nodo State)) x y :
  NoDup (chave <$> l) → x ∈ l → y ∈ l → chave x = chave y → x = y.
Proof.
  intros Hnd [i Hi]%list_elem_of_lookup [j Hj]%list_elem_of_lookup Heq.
  assert (i = j) as ->; [|congruence].
  eapply NoDup_lookup; [exact Hnd|..].
  - by rewrite list_lookup_fmap, Hi.
  - by rewrite list_lookup_fmap, Hj, Heq.
Qed.

(** X1. A path returned by [buscar], in either mode, never passes twice
    through the same state: the keys of its nodes are pairwise distinct
    and all of them are in the explored set, so the path has at most as
    many nodes as there are explored keys. *)
Theorem caminho_sem_repeticao tipo_busca fuel p :
  (buscar inicio tipo_busca fuel).1 = Caminho p →
  NoDup (chave <$> p)
  ∧ (∀ x, x ∈ p → chave x ∈ explorado (buscar inicio tipo_busca fuel).2)
  ∧ length p ≤ size (explorado (buscar inicio tipo_busca fuel).2).
Proof.
  intros Hp.
  destruct (buscar_inv_cobertura tipo_busca fuel)
    as (([(HX & Hnd & _) _] & _ & Hpais & _) & _ & Hcam).
  destruct (Hcam p Hp) as (n & -> & Hn).
  assert (∀ x, x ∈ caminho_ n → x ∈ enfileirados (buscar inicio tipo_busca fuel).2) as Hsub.
  { intros x. apply caminho_enfileirado; [done|]. unfold enfileirados. set_solver. }
  assert (NoDup (chave <$> caminho_ n)) as Hnd'.
  { apply NoDup_fmap_2_strong; [|apply caminho_NoDup].
    intros x y Hx Hy. apply (chave_unica _ _ _ Hnd); auto. }
  assert (∀ x, x ∈ caminho_ n → chave x ∈ explorado (buscar inicio tipo_busca fuel).2) as Hin.
  { intros x Hx. rewrite HX. apply elem_of_list_to_set, list_elem_of_fmap. eauto. }
  split_and!; [done..|].
  rewrite <- (length_fmap chave), <- (size_list_to_set (C:=gset string)) by done.
  apply subseteq_size. intros k. rewrite elem_of_list_to_set.
  intros (x & -> & Hx)%list_elem_of_fmap. auto.
Qed.

(** Distinct reachable states have distinct keys. *)
Hypothesis chave_inj :
  ∀ s1 s2, alcancavel s1 → alcancavel s2 → str s1 = str s2 → s1 = s2.

(** Once the frontier is empty every reachable state has been taken from
    it. *)
Lemma exaustao_cobre e s :
  inv_cobertura e → borda e = [] →
  Forall (λ c, objetivo (estado c) = false) (visitados e) →
  alcancavel s → ∃ n, n ∈ visitados e ∧ estado n = s.
Proof using chave_inj.
  intros ([(HX & _) Hval] & Hfech & _ & Hraiz) Hb Hnao [k Hk].
  assert (∀ s', alcancavel s' → str s' ∈ explorado e →
            ∃ n, n ∈ visitados e ∧ estado n = s') as Hkey.
  { intros s' Hs'. rewrite HX, elem_of_list_to_set. unfold enfileirados. rewrite Hb, app_nil_r.
    intros (n & Hn & Hin)%list_elem_of_fmap. exists n. split; [done|].
    symmetry. apply chave_inj; [done| |done].
    eexists. eapply valido_alcancavel. eapply Forall_forall in Hval; [exact Hval|].
    unfold enfileirados. set_solver. }
  induction Hk as [|k s ma Hs IH Hma].
  - apply Hkey; [by exists 0; constructor|done].
  - destruct IH as (n & Hn & <-).
    apply Hkey; [eexists; by econstructor|].
    apply (Hfech n ma); [done| |done].
    by eapply Forall_forall in Hnao.
Qed.

(** X2. Completeness. When distinct reachable states have distinct keys
    and the keys of the reachable states lie in a finite set [U], a search
    in either mode that may run more than [size U] times returns a path as
    soon as some goal state is reachable from the start state. *)
Theorem busca_completa (U : gset string) tipo_busca fuel k s :
  (∀ s', alcancavel s' → str s' ∈ U) → size U < fuel →
  tipo_busca = "largura" ∨ tipo_busca = "profundidade" →
  alcancavel_em k s → objetivo s = true →
  ∃ p, (buscar inicio tipo_busca fuel).1 = Caminho p.
Proof using chave_inj.
  intros HU Hfuel Hmodo Hs Hobj.
  pose proof (buscar_nao_esgota objetivo str acoes inicio U HU tipo_busca fuel Hfuel) as Hne.
  destruct (buscar_inv_cobertura tipo_busca fuel) as (Hcob & Hnao & _).
  destruct (buscar_modo objetivo str acoes inicio tipo_busca fuel Hmodo) as [l Hl].
  rewrite Hl in Hne, Hcob, Hnao |- *.
  destruct (laco_resultado objetivo str acoes l fuel (inicial str inicio))
    as [[n Hn]|[[Hr Hb]|Hr]]; [by eexists| |done].
  destruct (exaustao_cobre _ s Hcob Hb (Hnao Hr)) as (n & Hn & <-); [by eexists|].
  specialize (Hnao Hr). eapply Forall_forall in Hnao; [|exact Hn]. simpl in Hnao. congruence.
Qed.

End Busca_completa.

(** ** Breadth-first search proceeds level by level *)
Section Busca_niveis.
Context {State : Type}.
Variable objetivo : State → bool.
Variable str : State → string.
Variable acoes : State → list ((unit → State) * string).
Variable inicio : State.
Implicit Types (n c m : Nodo State).
Implicit Types (e : Execucao State) (s : State).

Local Abbreviation laco := (laco objetivo str acoes).
Local Abbreviation buscar := (buscar objetivo str acoes).
Local Abbreviation expandir := (expandir str acoes).
Local Abbreviation chave := (chave str).
Local Abbreviation alcancavel_em := (alcancavel_em acoes inicio).
Local Abbreviation alcancavel := (alcancavel acoes inicio).
Local Abbreviation inv_largura := (inv_largura objetivo str acoes inicio).

Lemma StronglySorted_snoc {A} (R : A → A → Prop) (l : list A) x :
  StronglySorted R l → Forall (λ y, R y x) l → StronglySorted R (l ++ [x]).
Proof.
  induction 1 as [|y l Hl IH Hy]; intros Hx; simpl; [by repeat constructor|].
  apply Forall_cons in Hx as [Hyx Hx]. constructor; [by apply IH|].
  apply Forall_app. split; [done|]. by repeat constructor.
Qed.

Lemma niveis_por_profundidade d e n r :
  niveis d e → borda e = n :: r → por_profundidade (visitados e) →
  por_profundidade (visitados e ++ [n]).
Proof.
  intros Hniv Hnr Hs. pose proof (niveis_cabeca _ _ _ _ Hniv Hnr) as Hd.
  destruct Hniv as (A & B & _ & _ & _ & _ & Hv).
  apply StronglySorted_snoc; [done|].
  eapply Forall_impl; [exact Hv|]. simpl. lia.
Qed.

(** X4. Breadth-first search takes the nodes from the frontier in order
    of depth: in the list of visited nodes no node comes before a node
    that is closer to the root. *)
Theorem largura_por_niveis fuel :
  por_profundidade (visitados (buscar inicio "largura" fuel).2).
Proof.
  change (buscar inicio "largura" fuel) with (laco true fuel (inicial str inicio)).
  apply (laco_inv objetivo str acoes
           (λ e, (∃ d, niveis d e) ∧ por_profundidade (visitados e))
           (λ _ e, por_profundidade (visitados e)) true).
  - by intros e [_ ?].
  - by intros e [_ ?].
  - intros e n r [[d Hniv] Hs] Hp Hobj. simpl.
    assert (borda e = n :: r) as Hnr by (by destruct (borda e); simplify_eq/=).
    by eapply niveis_por_profundidade.
  - intros e n r [[d Hniv] Hs] Hp Hobj.
    assert (borda e = n :: r) as Hnr by (by destruct (borda e); simplify_eq/=).
    split; [by eapply niveis_expandir|].
    rewrite expandir_eq. simpl. by eapply niveis_por_profundidade.
  - split; [|constructor]. exists 0, [novo_nodo inicio None None], []. simpl.
    split_and!; try done. repeat constructor.
Qed.

(** Distinct reachable states have distinct keys. *)
Hypothesis chave_inj :
  ∀ s1 s2, alcancavel s1 → alcancavel s2 → str s1 = str s2 → s1 = s2.

Lemma inv_largura_distancia e m k :
  inv_largura e → m ∈ visitados e ∨ (∃ r, borda e = m :: r) →
  alcancavel_em k (estado m) → profundidade m ≤ k.
Proof.
  clear chave_inj. intros He Hm Hk.
  destruct (inv_largura_alcanca objetivo str acoes inicio e k (estado m) He Hk)
    as (m' & Hm' & Hle & Hcase).
  destruct He as ([(HX & Hnd & _) _] & _ & _ & [d Hniv] & _).
  assert (m ∈ enfileirados e) as Hin.
  { unfold enfileirados. destruct Hm as [?|[r Hr]]; [set_solver|]. rewrite Hr. set_solver. }
  assert (profundidade m ≤ d) as Hmd.
  { destruct Hm as [Hm|[r Hr]].
    - destruct Hniv as (A & B & _ & _ & _ & _ & Hv).
      by eapply Forall_forall in Hv.
    - by rewrite (niveis_cabeca _ _ _ _ Hniv Hr). }
  destruct Hcase as [Hst|Hb].
  - assert (m' = m) as ->; [|done].
    eapply (chave_unica str); [exact Hnd|done..|]. unfold chave. by rewrite Hst.
  - pose proof (niveis_borda _ _ _ Hniv Hb). lia.
Qed.

(** X5. In breadth-first mode, when distinct reachable states have
    distinct keys, every node taken from the frontier sits at the
    shortest distance of its state: its state is reached from the start
    state by as many actions as the node is deep, and by no fewer. *)
Theorem largura_distancias fuel m :
  m ∈ visitados (buscar inicio "largura" fuel).2 →
  alcancavel_em (profundidade m) (estado m)
  ∧ ∀ k, alcancavel_em k (estado m) → profundidade m ≤ k.
Proof using chave_inj.
  intros Hm. split.
  - eapply valido_alcancavel.
    destruct (buscar_invariante objetivo str acoes inicio "largura" fuel) as [_ Hval].
    eapply Forall_forall in Hval; [exact Hval|]. unfold enfileirados. set_solver.
  - revert m Hm.
    change (buscar inicio "largura" fuel) with (laco true fuel (inicial str inicio)).
    apply (laco_inv objetivo str acoes inv_largura
             (λ _ e, ∀ m, m ∈ visitados e →
                ∀ k, alcancavel_em k (estado m) → profundidade m ≤ k) true).
    + intros e He m Hm k. apply (inv_largura_distancia e); auto.
    + intros e He _ m Hm k. apply (inv_largura_distancia e); auto.
    + intros e n r He Hp Hobj m Hm k.
      assert (borda e = n :: r) as Hnr by (by destruct (borda e); simplify_eq/=).
      simpl in Hm. apply (inv_largura_distancia e); [done|].
      apply elem_of_app in Hm as [?|Hm]; [by left|].
      apply list_elem_of_singleton in Hm as ->. right. by eexists.
    + intros e n r He Hp Hobj.
      assert (borda e = n :: r) as Hnr by (by destruct (borda e); simplify_eq/=).
      by apply inv_largura_expandir.
    + apply inv_largura_inicial.
Qed.
End Busca_niveis.

(** ** The goal test of the puzzle *)
Module QuebraCabeca_objetivo.
Import QuebraCabeca.
#[local] Open Scope Z_scope.

Lemma wrap64_id z : - 2 ^ 63 ≤ z < 2 ^ 63 → wrap64 z = z.
Proof.
  intros Hz. unfold wrap64. rewrite Z.mod_small by lia. lia.
Qed.

Lemma inserir_unico_singleton x v l :
  inserir_unico x l = [v] ↔ x = v ∧ (l = [] ∨ l = [v]).
Proof.
  destruct l as [|y l]; simpl.
  - split; [intros [= ->]; auto|intros [-> _]; done].
  - destruct (Z.ltb_spec x y); [|destruct (Z.eqb_spec x y)].
    + split; [done|]. intros [-> [?|[= -> ->]]]; [done|lia].
    + subst. split; [intros [= -> ->]; auto|]. intros [-> [?|[= ->]]]; done.
    + split.
      * destruct l; simpl; [done|]. repeat case_match; done.
      * intros [-> [?|[= -> ->]]]; done.
Qed.

(** [np.unique] gives a single value exactly when the array is not empty
    and all its elements are that value. *)
Lemma unique_singleton v l : unique l = [v] ↔ l ≠ [] ∧ Forall (λ x, x = v) l.
Proof.
  induction l as [|x l IH]; simpl; [naive_solver|].
  rewrite inserir_unico_singleton. split.
  - intros [-> [Hl|Hl]].
    + destruct l as [|y l]; [by repeat constructor|].
      simpl in Hl. destruct (unique l); simpl in Hl; repeat case_match; done.
    + apply IH in Hl as [_ Hl]. split; [done|]. by constructor.
  - intros [_ [-> Hl]%Forall_cons]. split; [done|].
    destruct l as [|y l]; [by left|]. right. apply IH. done.
Qed.

(** C2. For every 3×3 board whose cells are small enough for the 64-bit
    sums not to wrap around (in particular for every arrangement of the
    tiles 1 to 9), [objetivo] is true if and only if the three row sums,
    the three column sums and the two diagonal sums are all 15. *)
Theorem objetivo_sse_somas_15 (a b c d e f g h i : Z) :
  Forall (λ x, - 2 ^ 60 ≤ x ≤ 2 ^ 60) [a; b; c; d; e; f; g; h; i] →
  objetivo [[a; b; c]; [d; e; f]; [g; h; i]] = true
  ↔ (a + b + c = 15 ∧ d + e + f = 15 ∧ g + h + i = 15)
    ∧ (a + d + g = 15 ∧ b + e + h = 15 ∧ c + f + i = 15)
    ∧ (a + e + i = 15 ∧ g + e + c = 15).
Proof.
  intros Hb. repeat (apply Forall_cons in Hb as [? Hb]).
  unfold objetivo.
  set (somas := sum_axis0 _ ++ sum_axis1 _ ++ _).
  assert (unique somas = [15] ↔
    (a + b + c = 15 ∧ d + e + f = 15 ∧ g + h + i = 15)
    ∧ (a + d + g = 15 ∧ b + e + h = 15 ∧ c + f + i = 15)
    ∧ (a + e + i = 15 ∧ g + e + c = 15)) as Hu.
  { rewrite unique_singleton. subst somas.
    cbn [sum_axis0 sum_axis1 trace diagonal reverse rev_append foldl zip_with fmap list_fmap
         np_sum lookup list_lookup app replicate Z.to_nat tamanho Pos.to_nat Pos.iter_op
         Init.Nat.add].
    unfold np_add. rewrite !Z.add_0_l.
    rewrite !(wrap64_id a), !(wrap64_id d), !(wrap64_id g) by lia.
    rewrite !(wrap64_id (a + b)), !(wrap64_id (d + e)), !(wrap64_id (g + h)),
      !(wrap64_id (a + d)), !(wrap64_id (b + e)), !(wrap64_id (c + f)),
      !(wrap64_id (a + e)), !(wrap64_id (g + e)) by lia.
    rewrite !wrap64_id by lia.
    change (Z.to_nat tamanho) with 3%nat. cbn [replicate app].
    rewrite !Forall_cons, Forall_nil. split; [intros [_ ?]|intros ?; split; [done|]]; lia. }
  destruct (unique somas) as [|x0 [|x1 l]] eqn:Hx.
  - split; [done|]. intros Hs. apply Hu in Hs. done.
  - rewrite bool_decide_eq_true. split.
    + intros ->. by apply Hu.
    + intros Hs. apply Hu in Hs. by simplify_eq.
  - split; [done|]. intros Hs. apply Hu in Hs. done.
Qed.
End QuebraCabeca_objetivo.

(** ** Facts about the moves of the puzzle *)
Module QuebraCabeca_facts.
Import QuebraCabeca.
Implicit Types (t : list (list Z)).

(** *** Moves listed by [acoes] stay on the board *)

Lemma movimentos_dentro t i j r c a :
  ((i, j), (r, c), a) ∈ movimentos t →
  (0 ≤ i < 3 ∧ 0 ≤ j < 3 ∧ 0 ≤ r < 3 ∧ 0 ≤ c < 3)%Z
  ∧ celula t r c = Some 9%Z.
Proof.
  unfold movimentos.
  intros ([i' j'] & Hm & Hij)%list_elem_of_bind.
  apply list_elem_of_bind in Hm as ([a' [r' c']] & Hm & Hd).
  unfold livre in Hm.
  destruct (bool_decide (0 ≤ r')%Z) eqn:H1; [|by apply elem_of_nil in Hm].
  destruct (bool_decide (0 ≤ c')%Z) eqn:H2; [|by apply elem_of_nil in Hm].
  destruct (bool_decide (r' < tamanho)%Z) eqn:H3; [|by apply elem_of_nil in Hm].
  destruct (bool_decide (c' < tamanho)%Z) eqn:H4; [|by apply elem_of_nil in Hm].
  destruct (bool_decide (celula t r' c' = Some 9%Z)) eqn:H5;
    [|by apply elem_of_nil in Hm].
  simpl in Hm. apply list_elem_of_singleton in Hm. simplify_eq.
  apply bool_decide_eq_true in H1, H2, H3, H4, H5. unfold tamanho in *.
  split; [|done].
  assert (0 ≤ i' < 3 ∧ 0 ≤ j' < 3)%Z; [|lia].
  unfold produto, range_tamanho in Hij.
  apply list_elem_of_bind in Hij as (i & Hij & Hi).
  apply list_elem_of_bind in Hij as (j & Hij & Hj).
  apply list_elem_of_singleton in Hij. simplify_eq.
  set_solver by lia.
Qed.

Lemma tabela_ok_celula t (r c : Z) :
  tabela_ok t → (0 ≤ r < 3)%Z → (0 ≤ c < 3)%Z →
  is_Some (celula t r c).
Proof.
  intros [Hlen Hrows] Hl Hc. unfold celula.
  destruct (lookup_lt_is_Some_2 t (Z.to_nat r)) as [lin Hlin]; [lia|].
  rewrite Hlin. simpl. apply lookup_lt_is_Some_2.
  eapply Forall_lookup_1 in Hrows; [|exact Hlin]. simpl in Hrows. lia.
Qed.

Lemma copiar_id t : copiar t = t.
Proof.
  unfold copiar. rewrite <- (list_fmap_id t) at 2.
  apply list_fmap_ext. intros _ lin _. apply list_fmap_id.
Qed.

Lemma celula_Some t (r c : Z) v :
  celula t r c = Some v ↔
  ∃ xs, t !! Z.to_nat r = Some xs ∧ xs !! Z.to_nat c = Some v.
Proof.
  unfold celula. destruct (t !! Z.to_nat r) as [xs|]; simpl; naive_solver.
Qed.

Lemma celula_atribuir_is_Some t (i j r c : Z) v :
  is_Some (celula t r c) →
  is_Some (celula (atribuir t i j v) r c).
Proof.
  intros [w (xs & Hr & Hc)%celula_Some]. unfold atribuir.
  destruct (decide (Z.to_nat i = Z.to_nat r)) as [Heq|Hne].
  - assert (is_Some (<[Z.to_nat j := v]> xs !! Z.to_nat c)) as [w' Hw'].
    { apply lookup_lt_is_Some. rewrite length_insert. by eapply lookup_lt_Some. }
    exists w'. apply celula_Some. eexists. split; [|exact Hw'].
    rewrite Heq, list_lookup_alter_eq, Hr. done.
  - exists w. apply celula_Some. exists xs. split; [|done].
    by rewrite list_lookup_alter_ne.
Qed.

Lemma atribuir_ok t (i j : Z) v : tabela_ok t → tabela_ok (atribuir t i j v).
Proof.
  intros [Hlen Hrows]. unfold atribuir. split; [by rewrite length_alter|].
  apply Forall_alter; [done|]. intros lin _ Hlin. by rewrite length_insert.
Qed.

Lemma atribuir_celulas t (i j : Z) v x :
  x ∈ mjoin (atribuir t i j v) → x = v ∨ x ∈ mjoin t.
Proof.
  unfold atribuir. rewrite !list_elem_of_join. intros (lin & Hx & Hlin).
  apply list_elem_of_lookup in Hlin as [k Hk]. rewrite list_lookup_alter in Hk.
  destruct (decide (Z.to_nat i = k)) as [Heq|Hne].
  - destruct (t !! Z.to_nat i) as [xs|] eqn:Hxs; simplify_eq/=.
    apply list_elem_of_lookup in Hx as [p Hp].
    destruct (decide (Z.to_nat j = p)) as [Heq|Hne].
    + apply lookup_lt_Some in Hp as Hlt. rewrite length_insert in Hlt.
      rewrite <- Heq in Hp, Hlt.
      rewrite list_lookup_insert_eq in Hp by done. left. by simplify_eq.
    + rewrite list_lookup_insert_ne in Hp by done. right. exists xs.
      split; by eapply list_elem_of_lookup_2.
  - right. exists lin. split; [done|]. by eapply list_elem_of_lookup_2.
Qed.

Lemma celula_elem_of t (r c : Z) v : celula t r c = Some v → v ∈ mjoin t.
Proof.
  intros (xs & Hxs & Hv)%celula_Some. apply list_elem_of_join. exists xs.
  split; by eapply list_elem_of_lookup_2.
Qed.

Lemma mover_ok t origem destino : tabela_ok t → tabela_ok (mover t origem destino).
Proof.
  intros Hok. unfold mover. destruct origem as [i j], destino as [r c].
  rewrite copiar_id. repeat case_match; auto using atribuir_ok.
Qed.

Lemma mover_celulas t origem destino x :
  x ∈ mjoin (mover t origem destino) → x ∈ mjoin t.
Proof.
  unfold mover. destruct origem as [i j], destino as [r c]. rewrite copiar_id.
  destruct (celula t r c) as [a|] eqn:Ha; [|done].
  destruct (celula t i j) as [b|] eqn:Hb; [|done].
  intros [->|[->|?]%atribuir_celulas]%atribuir_celulas;
    eauto using celula_elem_of.
Qed.

Lemma elem_of_acoes t (ma : (unit → list (list Z)) * string) :
  ma ∈ acoes t → ∃ origem destino, ma.1 () = mover t origem destino
                   ∧ (origem, destino, ma.2) ∈ movimentos t.
Proof.
  unfold acoes. intros ([[o d] a] & -> & Hm)%list_elem_of_fmap. by exists o, d.
Qed.

(** Every board reachable from [t0] has the shape of a board and only
    cells of [t0]. *)
Lemma alcancavel_tabela t0 t :
  tabela_ok t0 → alcancavel acoes t0 t →
  tabela_ok t ∧ Forall (λ x, x ∈ mjoin t0) (mjoin t).
Proof.
  intros Hok [k Hk]. induction Hk as [|k s ma Hs [IHok IHc] Hma].
  - split; [done|]. by apply Forall_forall.
  - apply elem_of_acoes in Hma as (o & d & -> & _). split; [by apply mover_ok|].
    apply Forall_forall. intros x Hx%mover_celulas.
    by eapply Forall_forall in IHc.
Qed.

(** *** Keys *)

Lemma str_juntar t : str t = juntar (iter t).
Proof. done. Qed.

Lemma pretty_digito (x : Z) : (0 ≤ x ≤ 9)%Z → ∃ c, pretty x = String c "".
Proof.
  intros Hx.
  assert (x = 0 ∨ x = 1 ∨ x = 2 ∨ x = 3 ∨ x = 4 ∨ x = 5 ∨ x = 6 ∨ x = 7 ∨ x = 8 ∨ x = 9)%Z
    as Hcases by lia.
  repeat (destruct Hcases as [->|Hcases]); [..|subst x]; by eexists.
Qed.

Lemma juntar_inj (w1 w2 : list Z) :
  Forall (λ x, 0 ≤ x ≤ 9)%Z w1 → Forall (λ x, 0 ≤ x ≤ 9)%Z w2 →
  length w1 = length w2 → juntar w1 = juntar w2 → w1 = w2.
Proof.
  intros H1. revert w2. induction H1 as [|x w1 Hx H1 IH]; intros [|y w2] H2 Hlen; try done.
  apply Forall_cons in H2 as [Hy H2]. unfold juntar. simpl.
  destruct (pretty_digito x Hx) as [cx Hcx], (pretty_digito y Hy) as [cy Hcy].
  rewrite Hcx, Hcy. simpl. intros [= -> Hrest].
  f_equal.
  - apply (inj pretty). congruence.
  - apply IH; [done|by simplify_eq/=|done].
Qed.

Lemma tabela_ok_eq t1 t2 : tabela_ok t1 → tabela_ok t2 → mjoin t1 = mjoin t2 → t1 = t2.
Proof.
  intros [Hl1 Hr1] [Hl2 Hr2].
  destruct t1 as [|a1 [|b1 [|c1 [|? ?]]]]; try done.
  destruct t2 as [|a2 [|b2 [|c2 [|? ?]]]]; try done.
  repeat (apply Forall_cons in Hr1 as [? Hr1]). repeat (apply Forall_cons in Hr2 as [? Hr2]).
  simpl. rewrite !app_nil_r. intros Heq.
  apply app_inj_1 in Heq as [-> Heq]; [|congruence].
  apply app_inj_1 in Heq as [-> ->]; [|congruence]. done.
Qed.

(** On boards of single digits [str] is injective. *)
Lemma str_inj t1 t2 :
  tabela_ok t1 → tabela_ok t2 →
  Forall (λ x, 0 ≤ x ≤ 9)%Z (mjoin t1) → Forall (λ x, 0 ≤ x ≤ 9)%Z (mjoin t2) →
  str t1 = str t2 → t1 = t2.
Proof.
  intros Hok1 Hok2 Hd1 Hd2 Hstr. apply tabela_ok_eq; [done..|].
  apply juntar_inj; [done..| |done].
  assert (∀ t, tabela_ok t → length (mjoin t) = 9) as Hlen.
  { intros t [Hl Hr]. destruct t as [|a [|b [|c [|? ?]]]]; try done.
    repeat (apply Forall_cons in Hr as [? Hr]). simpl. rewrite !length_app. simpl. lia. }
  by rewrite !Hlen.
Qed.

Lemma alcancavel_str_inj t0 s1 s2 :
  tabela_ok t0 → Forall (λ x, 0 ≤ x ≤ 9)%Z (mjoin t0) →
  alcancavel acoes t0 s1 → alcancavel acoes t0 s2 → str s1 = str s2 → s1 = s2.
Proof.
  intros Hok Hd [Hok1 Hc1]%alcancavel_tabela [Hok2 Hc2]%alcancavel_tabela; [|done..].
  apply str_inj; [done..| |].
  - eapply Forall_impl; [exact Hc1|]. intros x Hx. by eapply Forall_forall in Hd.
  - eapply Forall_impl; [exact Hc2|]. intros x Hx. by eapply Forall_forall in Hd.
Qed.

(** *** Finitely many keys *)

Lemma elem_of_palavras (C w : list Z) :
  Forall (λ x, x ∈ C) w → w ∈ palavras (length w) C.
Proof.
  induction 1 as [|x w Hx Hw IH]; simpl; [by left|].
  apply list_elem_of_bind. exists x. split; [|done].
  apply list_elem_of_bind. exists w. split; [by left|done].
Qed.

Lemma alcancavel_chaves t0 t :
  tabela_ok t0 → alcancavel acoes t0 t → str t ∈ chaves_de t0.
Proof.
  intros Hok Ht. destruct (alcancavel_tabela t0 t Hok Ht) as [Hokt Hc].
  unfold chaves_de. apply elem_of_list_to_set, list_elem_of_fmap.
  exists (mjoin t). split; [done|].
  assert (∀ t, tabela_ok t → length (mjoin t) = 9) as Hlen.
  { intros t' [Hl Hr]. destruct t' as [|a [|b [|c [|? ?]]]]; try done.
    repeat (apply Forall_cons in Hr as [? Hr]). simpl. rewrite !length_app. simpl. lia. }
  rewrite (Hlen t0 Hok), <- (Hlen t Hokt). by apply elem_of_palavras.
Qed.
End QuebraCabeca_facts.

(** ** The moves of the puzzle *)
Module QuebraCabeca_movimentos.
Import QuebraCabeca QuebraCabeca_facts.
Implicit Types (t : list (list Z)) (o d p q : Z * Z) (a : string).

Lemma elem_of_produto p : p ∈ produto ↔ dentro p.
Proof.
  destruct p as [i j]. unfold dentro. simpl. split.
  - intros Hp. unfold produto, range_tamanho in Hp. simpl in Hp.
    rewrite !elem_of_cons, elem_of_nil in Hp. naive_solver lia.
  - intros [Hi Hj].
    assert (i = 0 ∨ i = 1 ∨ i = 2)%Z as [-> | [-> | ->]] by lia;
      assert (j = 0 ∨ j = 1 ∨ j = 2)%Z as [-> | [-> | ->]] by lia;
      unfold produto, range_tamanho; simpl; set_solver.
Qed.

Lemma direcao_de_Some a v :
  direcao_de a = Some v ↔
  (a = "1 Cima" ∧ v = (-1, 0)%Z) ∨ (a = "2 Baixo" ∧ v = (1, 0)%Z)
  ∨ (a = "3 Esquerda" ∧ v = (0, -1)%Z) ∨ (a = "4 Direita" ∧ v = (0, 1)%Z).
Proof.
  unfold direcao_de. split.
  - destruct (String.eqb_spec a "1 Cima") as [->|?]; [naive_solver|].
    destruct (String.eqb_spec a "2 Baixo") as [->|?]; [naive_solver|].
    destruct (String.eqb_spec a "3 Esquerda") as [->|?]; [naive_solver|].
    destruct (String.eqb_spec a "4 Direita") as [->|?]; [naive_solver|]. done.
  - intros [[-> ->] | [[-> ->] | [[-> ->] | [-> ->]]]]; done.
Qed.

Lemma elem_of_direcoes a (i j l c : Z) :
  (a, (l, c)) ∈ direcoes i j ↔ direcao_de a = Some (i - l, j - c)%Z.
Proof.
  rewrite direcao_de_Some. unfold direcoes. rewrite !elem_of_cons, elem_of_nil. split.
  - intros [?|[?|[?|[?|[]]]]]; simplify_eq; [left|right; left|do 2 right; left|do 3 right];
      (split; [done|f_equal; lia]).
  - intros [[-> ?] | [[-> ?] | [[-> ?] | [-> ?]]]]; simplify_eq;
      [left|right; left|do 2 right; left|do 3 right; left]; repeat f_equal; lia.
Qed.

Lemma livre_true t (l c : Z) :
  livre t l c = true ↔ dentro (l, c) ∧ celula t l c = Some 9%Z.
Proof.
  unfold livre, dentro, tamanho. simpl.
  rewrite !andb_true_iff, !bool_decide_eq_true. naive_solver lia.
Qed.

(** The moves listed for a board: the cell [d] of a 9 exchanged with a
    cell [o] of the board next to it, under the label of the step from
    [d] to [o]. *)
Lemma elem_of_movimentos t o d a :
  (o, d, a) ∈ movimentos t ↔
  dentro o ∧ dentro d ∧ celula_em t d = Some 9%Z
  ∧ direcao_de a = Some (o.1 - d.1, o.2 - d.2)%Z.
Proof.
  destruct o as [i j], d as [l c]. unfold movimentos, celula_em. cbn [fst snd]. split.
  - intros ([i' j'] & Hm & Hij%elem_of_produto)%list_elem_of_bind.
    apply list_elem_of_bind in Hm as ([a' [l' c']] & Hm & Hd%elem_of_direcoes).
    destruct (livre t l' c') eqn:Hl; [|by apply elem_of_nil in Hm].
    apply list_elem_of_singleton in Hm. simplify_eq.
    apply livre_true in Hl as [? ?]. done.
  - intros (Ho & Hd & H9 & Hdir). apply list_elem_of_bind. exists (i, j).
    split; [|by apply elem_of_produto]. apply list_elem_of_bind. exists (a, (l, c)).
    split; [|by apply elem_of_direcoes].
    rewrite (proj2 (livre_true t l c)) by done. by left.
Qed.

(** *** Cells after an assignment *)

Lemma celula_atribuir_eq t (i j : Z) v :
  is_Some (celula t i j) → celula (atribuir t i j v) i j = Some v.
Proof.
  intros [w (xs & Hxs & Hw)%celula_Some]. apply celula_Some.
  exists (<[Z.to_nat j := v]> xs). split.
  - unfold atribuir. by rewrite list_lookup_alter_eq, Hxs.
  - apply list_lookup_insert_eq. by eapply lookup_lt_Some.
Qed.

Lemma celula_atribuir_ne t (i j r c : Z) v :
  (0 ≤ i)%Z → (0 ≤ j)%Z → (0 ≤ r)%Z → (0 ≤ c)%Z → (r, c) ≠ (i, j) →
  celula (atribuir t i j v) r c = celula t r c.
Proof.
  intros Hi Hj Hr Hc Hne. unfold celula, atribuir.
  destruct (decide (Z.to_nat i = Z.to_nat r)) as [Heq|Hne'].
  - rewrite Heq, list_lookup_alter_eq. destruct (t !! Z.to_nat r) as [xs|]; [|done].
    simpl. apply list_lookup_insert_ne. intros Hjc. apply Hne. f_equal; lia.
  - by rewrite list_lookup_alter_ne.
Qed.

Lemma mover_celulas_dentro t o d :
  tabela_ok t → dentro o → dentro d →
  celula_em (mover t o d) o = celula_em t d
  ∧ celula_em (mover t o d) d = celula_em t o
  ∧ ∀ p, dentro p → p ≠ o → p ≠ d → celula_em (mover t o d) p = celula_em t p.
Proof.
  intros Hok [Hi Hj] [Hr Hc]. destruct o as [i j], d as [r c]. simpl in *.
  destruct (tabela_ok_celula t i j Hok Hi Hj) as [v_ij Hij].
  destruct (tabela_ok_celula t r c Hok Hr Hc) as [v_rc Hrc].
  unfold celula_em, mover. simpl. rewrite copiar_id, Hrc, Hij.
  assert (is_Some (celula (atribuir t i j v_rc) r c)) as Hs
    by (by apply celula_atribuir_is_Some; eexists).
  split_and!.
  - destruct (decide ((i, j) = (r, c))) as [Heq|Hne].
    + simplify_eq. rewrite celula_atribuir_eq by done. congruence.
    + rewrite celula_atribuir_ne by (done || lia).
      apply celula_atribuir_eq. by eexists.
  - by apply celula_atribuir_eq.
  - intros [k1 k2] [Hk1 Hk2] Hpo Hpd. simpl in *.
    rewrite !celula_atribuir_ne by (done || lia). done.
Qed.

(** Two boards with the same cells are the same board. *)
Lemma tabela_ext t1 t2 :
  tabela_ok t1 → tabela_ok t2 →
  (∀ p, dentro p → celula_em t1 p = celula_em t2 p) → t1 = t2.
Proof.
  intros [Hl1 Hr1] [Hl2 Hr2] Hcel.
  destruct t1 as [|[|a1 [|b1 [|c1 [|? ?]]]] [|[|d1 [|e1 [|f1 [|? ?]]]] [|[|g1 [|h1 [|i1 [|? ?]]]] [|? ?]]]];
    try done; repeat (apply Forall_cons in Hr1 as [? Hr1]); try done.
  destruct t2 as [|[|a2 [|b2 [|c2 [|? ?]]]] [|[|d2 [|e2 [|f2 [|? ?]]]] [|[|g2 [|h2 [|i2 [|? ?]]]] [|? ?]]]];
    try done; repeat (apply Forall_cons in Hr2 as [? Hr2]); try done.
  pose proof (Hcel (0, 0)%Z) as H00. pose proof (Hcel (0, 1)%Z) as H01.
  pose proof (Hcel (0, 2)%Z) as H02. pose proof (Hcel (1, 0)%Z) as H10.
  pose proof (Hcel (1, 1)%Z) as H11. pose proof (Hcel (1, 2)%Z) as H12.
  pose proof (Hcel (2, 0)%Z) as H20. pose proof (Hcel (2, 1)%Z) as H21.
  pose proof (Hcel (2, 2)%Z) as H22.
  unfold dentro, celula_em, celula in *. simpl in *.
  specialize (H00 ltac:(lia)). specialize (H01 ltac:(lia)). specialize (H02 ltac:(lia)).
  specialize (H10 ltac:(lia)). specialize (H11 ltac:(lia)). specialize (H12 ltac:(lia)).
  specialize (H20 ltac:(lia)). specialize (H21 ltac:(lia)). specialize (H22 ltac:(lia)).
  by simplify_eq.
Qed.
Lemma elem_of_acoes_movimentos t (ma : (unit → list (list Z)) * string) :
  ma ∈ acoes t ↔ ∃ o d, (o, d, ma.2) ∈ movimentos t ∧ ma.1 = λ _, mover t o d.
Proof.
  unfold acoes. rewrite list_elem_of_fmap. split.
  - intros ([[o d] a] & -> & Hm). by exists o, d.
  - intros (o & d & Hm & Heq). exists (o, d, ma.2). split; [|done].
    destruct ma as [m a]. simpl in *. by rewrite Heq.
Qed.

(** X6. On a 3×3 board the actions are exactly the exchanges of a 9 with
    a cell of the board next to it: every listed action exchanges the
    cell [d] of a 9 with a cell [o] one step away, and its label names the
    step the 9 makes from [d] to [o] (Cima one row up, Baixo one row
    down, Esquerda one column left, Direita one column right);
    conversely every such exchange is listed under that label. *)
Theorem acoes_vizinhos t :
  tabela_ok t →
  (∀ ma, ma ∈ acoes t →
     ∃ o d, dentro o ∧ dentro d ∧ celula_em t d = Some 9%Z
            ∧ direcao_de ma.2 = Some (o.1 - d.1, o.2 - d.2)%Z
            ∧ ma.1 () = mover t o d)
  ∧ (∀ o d a, dentro o → dentro d → celula_em t d = Some 9%Z →
       direcao_de a = Some (o.1 - d.1, o.2 - d.2)%Z →
       ∃ ma, ma ∈ acoes t ∧ ma.2 = a ∧ ma.1 () = mover t o d).
Proof.
  intros _. split.
  - intros ma (o & d & Hm & Heq)%elem_of_acoes_movimentos.
    apply elem_of_movimentos in Hm as (? & ? & ? & ?).
    exists o, d. split_and!; [done..|]. by rewrite Heq.
  - intros o d a Ho Hd H9 Hdir. exists (λ _, mover t o d, a). split_and!; [|done..].
    apply elem_of_acoes_movimentos. exists o, d. split; [|done].
    by apply elem_of_movimentos.
Qed.

(** X7. [mover] between two positions of a 3×3 board exchanges the two
    cells and leaves every other cell as it was; the result is again a
    3×3 board, and making the same move once more gives the board back. *)
Theorem mover_troca t o d :
  tabela_ok t → dentro o → dentro d →
  tabela_ok (mover t o d)
  ∧ celula_em (mover t o d) o = celula_em t d
  ∧ celula_em (mover t o d) d = celula_em t o
  ∧ (∀ p, dentro p → p ≠ o → p ≠ d → celula_em (mover t o d) p = celula_em t p)
  ∧ mover (mover t o d) o d = t.
Proof.
  intros Hok Ho Hd. pose proof (mover_ok t o d Hok) as Hok'.
  destruct (mover_celulas_dentro t o d Hok Ho Hd) as (H1 & H2 & H3).
  split_and!; [done..|].
  destruct (mover_celulas_dentro (mover t o d) o d Hok' Ho Hd) as (H1' & H2' & H3').
  apply tabela_ext; [by apply mover_ok|done|]. intros p Hp.
  destruct (decide (p = o)) as [->|Hpo]; [by rewrite H1', H2|].
  destruct (decide (p = d)) as [->|Hpd]; [by rewrite H2', H1|].
  by rewrite H3', H3.
Qed.

Lemma direcao_oposta a (v : Z * Z) :
  direcao_de a = Some v → ∃ a', direcao_de a' = Some (- v.1, - v.2)%Z.
Proof.
  intros [[-> ->] | [[-> ->] | [[-> ->] | [-> ->]]]]%direcao_de_Some.
  - by exists "2 Baixo".
  - by exists "1 Cima".
  - by exists "4 Direita".
  - by exists "3 Esquerda".
Qed.

(** X8. Every action of a 3×3 board can be undone: the board it leads to
    lists an action, labelled with the opposite step, that leads back to
    the board it came from. *)
Theorem acao_reversivel t (ma : (unit → list (list Z)) * string) :
  tabela_ok t → ma ∈ acoes t →
  ∃ ma' v, ma' ∈ acoes (ma.1 ()) ∧ ma'.1 () = t
    ∧ direcao_de ma.2 = Some v ∧ direcao_de ma'.2 = Some (- v.1, - v.2)%Z.
Proof.
  intros Hok (o & d & Hm & Heq)%elem_of_acoes_movimentos.
  apply elem_of_movimentos in Hm as (Ho & Hd & H9 & Hdir).
  destruct (direcao_oposta _ _ Hdir) as [a' Ha']. simpl in Ha'.
  pose proof (mover_ok t o d Hok) as Hok'.
  destruct (mover_celulas_dentro t o d Hok Ho Hd) as (H1 & H2 & H3).
  destruct (mover_celulas_dentro (mover t o d) d o Hok' Hd Ho) as (H1' & H2' & H3').
  exists (λ _, mover (mover t o d) d o, a'), (o.1 - d.1, o.2 - d.2)%Z.
  rewrite Heq. split_and!; [|simpl|done|done].
  - apply elem_of_acoes_movimentos. exists d, o. split; [|done].
    apply elem_of_movimentos. split_and!; [done..|by rewrite H1|].
    simpl. rewrite Ha'. do 2 f_equal; lia.
  - apply tabela_ext; [by apply mover_ok|done|]. intros p Hp.
    destruct (decide (p = d)) as [->|Hpd]; [by rewrite H1', H1|].
    destruct (decide (p = o)) as [->|Hpo]; [by rewrite H2', H2|].
    by rewrite H3', H3.
Qed.
(** *** The tiles are conserved *)

(** Splits an explicit list at the first occurrence of [x]. *)
Ltac separar x k :=
  lazymatch k with
  | x :: ?r => constr:((@nil Z, r))
  | ?y :: ?r =>
    let res := separar x r in
    lazymatch res with
    | (?a, ?b) => constr:((y :: a, b))
    end
  end.

(** Proves that two explicit lists of the same elements are permutations
    of each other. *)
Ltac permutar :=
  repeat lazymatch goal with
  | |- [] ≡ₚ [] => reflexivity
  | |- ?x :: ?l ≡ₚ ?k =>
    let res := separar x k in
    lazymatch res with
    | (?a, ?b) =>
      let ab := eval simpl in (a ++ b) in
      transitivity (x :: ab); [apply Permutation_skip|exact (Permutation_middle a b x)]
    end
  end.

Lemma tabela_ok_celulas t :
  tabela_ok t → ∃ a b c d e f g h i : Z, t = [[a; b; c]; [d; e; f]; [g; h; i]].
Proof.
  intros [Hl Hr].
  destruct t as [|[|a [|b [|c [|? ?]]]] [|[|d [|e [|f [|? ?]]]] [|[|g [|h [|i [|? ?]]]] [|? ?]]]];
    try done; repeat (apply Forall_cons in Hr as [? Hr]); try done.
  by exists a, b, c, d, e, f, g, h, i.
Qed.

Lemma dentro_casos p :
  dentro p → p.1 = 0%Z ∨ p.1 = 1%Z ∨ p.1 = 2%Z.
Proof. unfold dentro. lia. Qed.

Lemma mover_Permutation t o d :
  tabela_ok t → dentro o → dentro d → mjoin (mover t o d) ≡ₚ mjoin t.
Proof.
  intros (a & b & c & x & e & f & g & h & i & ->)%tabela_ok_celulas Ho Hd.
  destruct o as [o1 o2], d as [d1 d2]. unfold dentro in *. simpl in *.
  assert (o1 = 0 ∨ o1 = 1 ∨ o1 = 2)%Z as [-> | [-> | ->]] by lia;
    assert (o2 = 0 ∨ o2 = 1 ∨ o2 = 2)%Z as [-> | [-> | ->]] by lia;
    assert (d1 = 0 ∨ d1 = 1 ∨ d1 = 2)%Z as [-> | [-> | ->]] by lia;
    assert (d2 = 0 ∨ d2 = 1 ∨ d2 = 2)%Z as [-> | [-> | ->]] by lia;
    vm_compute; permutar.
Qed.

(** X9. The tiles are conserved: every board reachable from a 3×3 board
    through the listed actions is a 3×3 board holding the same numbers,
    each as many times as in the start board. *)
Theorem alcancavel_mesmas_pecas t0 t :
  tabela_ok t0 → alcancavel acoes t0 t →
  tabela_ok t ∧ iter t ≡ₚ iter t0.
Proof.
  intros Hok [k Hk]. induction Hk as [|k s ma Hs [IHok IHp] Hma]; [done|].
  apply elem_of_acoes_movimentos in Hma as (o & d & Hm & Heq).
  apply elem_of_movimentos in Hm as (Ho & Hd & _). rewrite Heq.
  split; [by apply mover_ok|]. unfold iter in *.
  by rewrite mover_Permutation.
Qed.
(** *** Boards with a single 9 *)

Lemma movimentos_um_nove t d : um_nove t d → movimentos t = vizinhos d.
Proof.
  intros [Hd Hun]. unfold movimentos, vizinhos.
  apply list_bind_ext; [|done]. intros [i j].
  apply list_bind_ext; [|done]. intros [a [l c]].
  replace (livre t l c) with (bool_decide ((l, c) = d)); [done|].
  destruct (livre t l c) eqn:Hl.
  - apply livre_true in Hl as [Hin H9]. apply bool_decide_eq_true. by apply Hun.
  - apply bool_decide_eq_false. intros <-.
    assert (livre t l c = true); [|congruence].
    apply livre_true. split; [done|]. by apply (Hun (l, c)).
Qed.

Lemma vizinhos_contagem d :
  dentro d →
  2 ≤ length (vizinhos d) ≤ 4 ∧ NoDup ((λ m, m.2) <$> vizinhos d).
Proof.
  destruct d as [d1 d2]. unfold dentro. simpl. intros [H1 H2].
  assert (d1 = 0 ∨ d1 = 1 ∨ d1 = 2)%Z as [-> | [-> | ->]] by lia;
    assert (d2 = 0 ∨ d2 = 1 ∨ d2 = 2)%Z as [-> | [-> | ->]] by lia;
    (split; [vm_compute; lia|apply (bool_decide_unpack _); by vm_compute]).
Qed.

Lemma direcao_inj a1 a2 (v : Z * Z) :
  direcao_de a1 = Some v → direcao_de a2 = Some v → a1 = a2.
Proof. rewrite !direcao_de_Some. naive_solver. Qed.

Lemma direcao_nao_nula a (v : Z * Z) : direcao_de a = Some v → v ≠ (0, 0)%Z.
Proof. rewrite direcao_de_Some. naive_solver. Qed.

Lemma um_nove_mover t o d a :
  tabela_ok t → um_nove t d → (o, d, a) ∈ movimentos t → um_nove (mover t o d) o.
Proof.
  intros Hok [Hd Hun] (Ho & _ & H9 & Hdir)%elem_of_movimentos.
  destruct (mover_celulas_dentro t o d Hok Ho Hd) as (H1 & H2 & H3).
  assert (o ≠ d) as Hod.
  { intros ->. apply direcao_nao_nula in Hdir. apply Hdir. f_equal; lia. }
  split; [done|]. intros q Hq. split.
  - intros Hq9. destruct (decide (q = o)) as [|Hqo]; [done|]. exfalso.
    destruct (decide (q = d)) as [->|Hqd].
    + rewrite H2 in Hq9. by apply Hun in Hq9.
    + rewrite H3 in Hq9 by done. by apply Hun in Hq9.
  - intros ->. by rewrite H1.
Qed.

(** X10. On a 3×3 board whose only 9 is at position [d] there are
    between two and four actions, their labels are pairwise distinct and
    they lead to pairwise distinct boards; each action moves the 9 by the
    step its label names, and the board it leads to again holds a single
    9, at the position reached. *)
Theorem um_nove_acoes t d :
  tabela_ok t → um_nove t d →
  2 ≤ length (acoes t) ≤ 4
  ∧ NoDup (snd <$> acoes t)
  ∧ NoDup ((λ ma : (unit → list (list Z)) * string, ma.1 ()) <$> acoes t)
  ∧ (∀ ma, ma ∈ acoes t →
       ∃ o, direcao_de ma.2 = Some (o.1 - d.1, o.2 - d.2)%Z
            ∧ ma.1 () = mover t o d ∧ um_nove (ma.1 ()) o).
Proof.
  intros Hok Hun. pose proof (movimentos_um_nove t d Hun) as Hviz.
  destruct (vizinhos_contagem d (proj1 Hun)) as [Hlen Hnd].
  assert (∀ ma, ma ∈ acoes t →
            ∃ o, (o, d, ma.2) ∈ movimentos t ∧ ma.1 = (λ _, mover t o d)) as Hacoes.
  { intros ma (o & d' & Hm & Heq)%elem_of_acoes_movimentos.
    assert (d' = d) as ->; [|by exists o].
    apply elem_of_movimentos in Hm as (_ & Hd' & H9 & _). by apply Hun. }
  assert (NoDup (snd <$> acoes t)) as Hrot.
  { unfold acoes. rewrite <- list_fmap_compose, Hviz. exact Hnd. }
  split; [unfold acoes; by rewrite length_fmap, Hviz|]. split_and!.
  - done.
  - apply NoDup_fmap_2_strong; [|by eapply NoDup_fmap_1].
    intros [m1 a1] [m2 a2] (o1 & Hm1 & Heq1)%Hacoes (o2 & Hm2 & Heq2)%Hacoes Hres.
    simpl in *. subst m1 m2. simpl in Hres.
    assert (o1 = o2) as ->.
    { destruct (decide (o1 = o2)) as [|Hne]; [done|]. exfalso.
      pose proof (um_nove_mover t o1 d a1 Hok Hun Hm1) as [_ Hun1].
      apply elem_of_movimentos in Hm1 as (Ho1 & Hd & _ & Hdir1).
      apply elem_of_movimentos in Hm2 as (Ho2 & _ & _ & _).
      destruct (mover_celulas_dentro t o2 d Hok Ho2 Hd) as (_ & _ & H3).
      assert (o1 ≠ d) as Ho1d.
      { intros ->. apply direcao_nao_nula in Hdir1. apply Hdir1. f_equal; lia. }
      assert (celula_em (mover t o1 d) o1 = Some 9%Z) as H9 by (by apply Hun1).
      rewrite Hres, H3 in H9 by done. apply Hun in H9; done. }
    f_equal. apply elem_of_movimentos in Hm1 as (_ & _ & _ & Hdir1).
    apply elem_of_movimentos in Hm2 as (_ & _ & _ & Hdir2).
    by eapply direcao_inj.
  - intros ma Hma. destruct (Hacoes ma Hma) as (o & Hm & Heq). exists o. rewrite Heq.
    split_and!; [|done|by eapply um_nove_mover].
    by apply elem_of_movimentos in Hm as (_ & _ & _ & ?).
Qed.

(** X11. The key of a 3×3 board of single digits has nine characters, and
    two such boards have the same key only when they are the same board. *)
Theorem str_sem_colisao t1 t2 :
  tabela_ok t1 → tabela_ok t2 →
  Forall (λ x, 0 ≤ x ≤ 9)%Z (iter t1) → Forall (λ x, 0 ≤ x ≤ 9)%Z (iter t2) →
  String.length (str t1) = 9 ∧ (str t1 = str t2 ↔ t1 = t2).
Proof.
  intros Hok1 Hok2 Hd1 Hd2. split; [|split; [by apply str_inj|by intros ->]].
  destruct (tabela_ok_celulas t1 Hok1) as (a & b & c & d & e & f & g & h & i & ->).
  unfold iter in Hd1. simpl in Hd1. repeat (apply Forall_cons in Hd1 as [? Hd1]).
  unfold str, iter, juntar. simpl.
  repeat match goal with
         | H : (0 ≤ ?x ≤ 9)%Z |- _ =>
           let c := fresh "c" in
           destruct (pretty_digito x H) as [c ->]; clear H
         end.
  done.
Qed.
End QuebraCabeca_movimentos.

(** ** [mover] builds a new board and leaves the old one alone *)
Module Memoria_facts.
Import Memoria QuebraCabeca_facts.

Implicit Types (h : memoria) (l q tl : loc) (ls : list loc) (t : list (list Z)).

(** *** Reading the store *)

Lemma bind_Some {A B} (m : M A) (k : A → M B) h x h' :
  m h = Some (x, h') → (x ← m; k x) h = k x h'.
Proof. unfold mbind, M_bind. by intros ->. Qed.

Lemma ler_linha_Some h l xs : h !! l = Some (Linha xs) → ler_linha l h = Some (xs, h).
Proof. intros Hl. unfold ler_linha, mbind, M_bind, ler. by rewrite Hl. Qed.

Lemma ler_linhas_Some h l ls : h !! l = Some (Linhas ls) → ler_linhas l h = Some (ls, h).
Proof. intros Hl. unfold ler_linhas, mbind, M_bind, ler. by rewrite Hl. Qed.

Lemma campo_tabela_Some h q n tl :
  h !! q = Some (Quebra n tl) → campo_tabela q h = Some (tl, h).
Proof. intros Hl. unfold campo_tabela, mbind, M_bind, ler. by rewrite Hl. Qed.

Lemma indice_nao_negativo n k :
  (0 ≤ k)%Z → Z.to_nat k < n → indice n k = Some (Z.to_nat k).
Proof. intros ??. unfold indice. rewrite decide_True by lia. done. Qed.

Lemma item_Some {A} (xs : list A) k x h :
  (0 ≤ k)%Z → xs !! Z.to_nat k = Some x → item xs k h = Some (x, h).
Proof.
  intros Hk Hx. unfold item.
  rewrite indice_nao_negativo by (done || by eapply lookup_lt_Some).
  simpl. by rewrite Hx.
Qed.

Lemma linhas_em_dom h ls t l : linhas_em h ls t → l ∈ ls → l ∈ dom h.
Proof.
  intros Hls Hl. apply list_elem_of_lookup in Hl as [i Hi].
  destruct (Forall2_lookup_l _ _ _ _ _ Hls Hi) as (xs & _ & Hxs).
  apply elem_of_dom. by eexists.
Qed.

Lemma linhas_em_weaken h h' ls t : linhas_em h ls t → h ⊆ h' → linhas_em h' ls t.
Proof.
  intros Hls Hsub. eapply Forall2_impl; [exact Hls|]. simpl.
  intros l xs Hl. by eapply lookup_weaken.
Qed.

(** *** [copiar] *)

Lemma copiar_linhas_spec h0 tabela ls t : ∀ h atual feitas,
  linhas_em h0 ls t → h0 ⊆ h → tabela ∉ dom h0 →
  h !! tabela = Some (Linhas atual) → linhas_em h atual feitas →
  Forall (λ l, l ∉ dom h0) atual → NoDup atual →
  ∃ h' novas, copiar_linhas tabela ls h = Some ((), h')
    ∧ h0 ⊆ h'
    ∧ h' !! tabela = Some (Linhas (atual ++ novas))
    ∧ linhas_em h' (atual ++ novas) (feitas ++ t)
    ∧ Forall (λ l, l ∉ dom h0) (atual ++ novas)
    ∧ NoDup (atual ++ novas).
Proof.
  intros h atual feitas Hls. revert h atual feitas.
  induction Hls as [|lin xs ls t Hlin Hls IH]; intros h atual feitas Hsub Htab Hat Hfeitas Hfresh Hnd.
  - exists h, []. rewrite !app_nil_r. done.
  - simpl.
    erewrite bind_Some; [|apply ler_linha_Some; by eapply lookup_weaken].
    set (nova := fresh (dom h)).
    assert (nova ∉ dom h) as Hnova by apply is_fresh.
    erewrite bind_Some; [|reflexivity]. fold nova.
    assert (tabela ≠ nova) as Hne.
    { intros ->. apply Hnova, elem_of_dom. by eexists. }
    erewrite bind_Some; [|apply ler_linhas_Some; by rewrite lookup_insert_ne].
    erewrite bind_Some; [|reflexivity].
    set (h2 := <[tabela := Linhas (atual ++ [nova])]> (<[nova := Linha ((λ x, x) <$> xs)]> h)).
    assert (h0 ⊆ h2) as Hsub2.
    { apply insert_subseteq_r; [by apply not_elem_of_dom|].
      apply insert_subseteq_r; [|done].
      apply not_elem_of_dom. intros Hin. apply Hnova.
      by apply (subseteq_dom _ _ Hsub). }
    destruct (IH h2 (atual ++ [nova]) (feitas ++ [xs])) as (h' & novas & Hrun & ? & ? & ? & ? & ?).
    + done.
    + done.
    + unfold h2. by rewrite lookup_insert_eq.
    + apply Forall2_app.
      * eapply Forall2_impl; [exact Hfeitas|]. simpl. intros l ys Hl. unfold h2.
        rewrite !lookup_insert_ne; [done|..].
        -- intros ->. apply Hnova, elem_of_dom. by eexists.
        -- intros ->. congruence.
      * constructor; [|constructor]. unfold h2.
        rewrite lookup_insert_ne by done. rewrite lookup_insert_eq. by rewrite list_fmap_id.
    + apply Forall_app. split; [done|]. constructor; [|constructor].
      intros Hin. apply Hnova. by apply (subseteq_dom _ _ Hsub).
    + apply NoDup_app. split_and!; [done| |apply NoDup_singleton].
      intros l Hl ->%list_elem_of_singleton. apply Hnova.
      by eapply linhas_em_dom.
    + exists h', (nova :: novas). rewrite <- !app_assoc in *. simpl in *. done.
Qed.

Lemma copiar_spec h0 self t :
  representa h0 self t →
  ∃ copia h' tl ls, copiar self h0 = Some (copia, h')
    ∧ h0 ⊆ h'
    ∧ feito_de h' copia tl ls t
    ∧ NoDup ls
    ∧ Forall (λ l, l ∉ dom h0) (copia :: tl :: ls).
Proof.
  intros (tl0 & ls0 & Hq & Htl & Hls). unfold copiar.
  erewrite bind_Some; [|by eapply campo_tabela_Some].
  erewrite bind_Some; [|by eapply ler_linhas_Some].
  set (tabela := fresh (dom h0)).
  assert (tabela ∉ dom h0) as Htab by apply is_fresh.
  erewrite bind_Some; [|reflexivity]. fold tabela.
  destruct (copiar_linhas_spec h0 tabela ls0 t (<[tabela := Linhas []]> h0) [] [])
    as (h1 & ls & Hrun & Hsub & Htab1 & Hls1 & Hfresh & Hnd); try done.
  { apply insert_subseteq. by apply not_elem_of_dom. }
  { by rewrite lookup_insert_eq. }
  { constructor. }
  { constructor. }
  simpl in *. erewrite bind_Some; [|exact Hrun].
  set (copia := fresh (dom h1)).
  assert (copia ∉ dom h1) as Hcopia by apply is_fresh.
  exists copia, (<[copia := Quebra QuebraCabeca.tamanho tabela]> h1), tabela, ls.
  assert (copia ≠ tabela) as Hne.
  { intros Heq. apply Hcopia. rewrite Heq. apply elem_of_dom. by eexists. }
  split_and!.
  - done.
  - apply insert_subseteq_r; [|done]. apply not_elem_of_dom. intros Hin.
    apply Hcopia. by apply (subseteq_dom _ _ Hsub).
  - split_and!.
    + by rewrite lookup_insert_eq.
    + by rewrite lookup_insert_ne.
    + eapply linhas_em_weaken; [exact Hls1|]. apply insert_subseteq. by apply not_elem_of_dom.
  - done.
  - constructor; [|by constructor].
    intros Hin. apply Hcopia. by apply (subseteq_dom _ _ Hsub).
Qed.
(** *** Reading and assigning a cell *)

Lemma obter_spec h q tl ls t (r c : Z) v :
  feito_de h q tl ls t → (0 ≤ r)%Z → (0 ≤ c)%Z →
  QuebraCabeca.celula t r c = Some v →
  obter q r c h = Some (v, h).
Proof.
  intros (Hq & Htl & Hls) Hr Hc (xs & Hxs & Hv)%celula_Some. unfold obter.
  destruct (Forall2_lookup_r _ _ _ _ _ Hls Hxs) as (lin & Hlin & Hh).
  erewrite bind_Some; [|by eapply campo_tabela_Some].
  erewrite bind_Some; [|by eapply ler_linhas_Some].
  erewrite bind_Some; [|by eapply item_Some].
  erewrite bind_Some; [|by eapply ler_linha_Some].
  by apply item_Some.
Qed.

Lemma atribuir_spec h q tl ls t (r c : Z) v :
  feito_de h q tl ls t → NoDup ls → (0 ≤ r)%Z → (0 ≤ c)%Z →
  is_Some (QuebraCabeca.celula t r c) →
  ∃ lin xs, lin ∈ ls
    ∧ atribuir q r c v h = Some ((), <[lin := Linha xs]> h)
    ∧ feito_de (<[lin := Linha xs]> h) q tl ls (QuebraCabeca.atribuir t r c v).
Proof.
  intros (Hq & Htl & Hls) Hnd Hr Hc [w (xs & Hxs & Hw)%celula_Some].
  destruct (Forall2_lookup_r _ _ _ _ _ Hls Hxs) as (lin & Hlin & Hh).
  exists lin, (<[Z.to_nat c := v]> xs). split_and!.
  - by eapply list_elem_of_lookup_2.
  - unfold atribuir.
    erewrite bind_Some; [|by eapply campo_tabela_Some].
    erewrite bind_Some; [|by eapply ler_linhas_Some].
    erewrite bind_Some; [|by eapply item_Some].
    erewrite bind_Some; [|by eapply ler_linha_Some].
    rewrite indice_nao_negativo by (done || by eapply lookup_lt_Some). done.
  - split_and!.
    + rewrite lookup_insert_ne; [done|]. intros ->. congruence.
    + rewrite lookup_insert_ne; [done|]. intros ->. congruence.
    + unfold linhas_em, QuebraCabeca.atribuir.
      apply Forall2_same_length_lookup. split.
      { rewrite length_alter. by eapply Forall2_length. }
      intros k lin' ys Hlin' Hys.
      destruct (decide (k = Z.to_nat r)) as [->|Hne].
      * rewrite list_lookup_alter_eq, Hxs in Hys. simplify_eq/=.
        by rewrite lookup_insert_eq.
      * rewrite list_lookup_alter_ne in Hys by done.
        rewrite lookup_insert_ne.
        { by eapply (Forall2_lookup_lr _ _ _ _ _ _ Hls). }
        intros ->. apply Hne. by eapply NoDup_lookup.
Qed.

Lemma feito_de_representa h q tl ls t : feito_de h q tl ls t → representa h q t.
Proof. intros (? & ? & ?). by exists tl, ls. Qed.

Lemma feito_de_objetos h q tl ls t : feito_de h q tl ls t → objetos_de h q = q :: tl :: ls.
Proof. intros (Hq & Htl & _). unfold objetos_de. by rewrite Hq, Htl. Qed.

Lemma representa_weaken h h' q t : representa h q t → h ⊆ h' → representa h' q t.
Proof.
  intros (tl & ls & Hq & Htl & Hls) Hsub. exists tl, ls.
  split_and!; [by eapply lookup_weaken..|by eapply linhas_em_weaken].
Qed.

Lemma subseteq_insert_fora h0 h l o : h0 ⊆ h → l ∉ dom h0 → h0 ⊆ <[l := o]> h.
Proof. intros Hsub Hl. apply insert_subseteq_r; [|done]. by apply not_elem_of_dom. Qed.

(** C9. For every 3×3 board and every move listed for it by [acoes],
    [mover] succeeds and returns a [QuebraCabeca] none of whose objects
    (instance, board list, row lists) existed before the call, reading as
    the board with the two cells exchanged; every object that existed
    before the call is unchanged, so the source state still reads as the
    same board, cell by cell. *)
Theorem mover_preserva_origem h self t origem destino acao :
  representa h self t → QuebraCabeca.tabela_ok t →
  (origem, destino, acao) ∈ QuebraCabeca.movimentos t →
  ∃ copia h', mover self origem destino h = Some (copia, h')
    ∧ h ⊆ h'
    ∧ representa h' self t
    ∧ representa h' copia (QuebraCabeca.mover t origem destino)
    ∧ copia ∈ objetos_de h' copia
    ∧ ∀ l, l ∈ objetos_de h' copia → l ∉ dom h.
Proof.
  intros Hrep Hok Hmov. destruct origem as [i j], destino as [r c].
  apply movimentos_dentro in Hmov as [(Hi & Hj & Hr & Hc) H9].
  destruct (tabela_ok_celula t i j Hok Hi Hj) as [v_ij Hij].
  destruct (copiar_spec h self t Hrep)
    as (copia & h1 & tl & ls & Hrun & Hsub & Hfeito & Hnd & Hfresh).
  destruct (atribuir_spec h1 copia tl ls t i j 9%Z Hfeito Hnd)
    as (lin1 & xs1 & Hlin1 & Hat1 & Hfeito1); [lia|lia|by eexists|].
  destruct (atribuir_spec _ copia tl ls _ r c v_ij Hfeito1 Hnd)
    as (lin2 & xs2 & Hlin2 & Hat2 & Hfeito2);
    [lia|lia|by apply celula_atribuir_is_Some; eexists|].
  apply Forall_cons in Hfresh as [Hcopia [Htl Hls]%Forall_cons].
  eexists copia, _. split_and!.
  - unfold mover.
    erewrite bind_Some; [|exact Hrun].
    erewrite bind_Some; [|eapply obter_spec; [exact Hfeito|lia|lia|exact H9]].
    erewrite bind_Some; [|eapply obter_spec; [exact Hfeito|lia|lia|exact Hij]].
    erewrite bind_Some; [|exact Hat1].
    erewrite bind_Some; [|exact Hat2]. done.
  - apply subseteq_insert_fora; [|by eapply Forall_forall in Hls].
    apply subseteq_insert_fora; [done|by eapply Forall_forall in Hls].
  - eapply representa_weaken; [exact Hrep|].
    apply subseteq_insert_fora; [|by eapply Forall_forall in Hls].
    apply subseteq_insert_fora; [done|by eapply Forall_forall in Hls].
  - unfold QuebraCabeca.mover. rewrite copiar_id, H9, Hij.
    by eapply feito_de_representa.
  - rewrite (feito_de_objetos _ _ _ _ _ Hfeito2). by left.
  - rewrite (feito_de_objetos _ _ _ _ _ Hfeito2). intros l Hl.
    assert (Forall (λ l, l ∉ dom h) (copia :: tl :: ls)) as Hall by (by repeat constructor).
    by eapply Forall_forall in Hall.
Qed.
End Memoria_facts.

(** ** Coordinates outside the board and negative coordinates *)
Module Memoria_indices.
Import Memoria QuebraCabeca_facts Memoria_facts.

Implicit Types (h : memoria) (q tl : loc) (ls : list loc) (t : list (list Z)).

Lemma indice_Some n k :
  (- Z.of_nat n ≤ k < Z.of_nat n)%Z → indice n k = Some (posicao n k).
Proof.
  intros Hk. unfold indice, posicao.
  destruct (decide (0 ≤ k < Z.of_nat n)%Z) as [Hpos|Hneg].
  - by rewrite Z.mod_small.
  - rewrite decide_True by lia. f_equal. f_equal.
    rewrite <- (Z.mod_add k 1) by lia. rewrite Z.mod_small; lia.
Qed.

Lemma indice_None n k :
  ¬ (- Z.of_nat n ≤ k < Z.of_nat n)%Z → indice n k = None.
Proof. intros Hk. unfold indice. rewrite !decide_False by lia. done. Qed.

Lemma posicao_lt n k : 0 < n → posicao n k < n.
Proof.
  intros Hn. unfold posicao.
  pose proof (Z.mod_pos_bound k (Z.of_nat n)). lia.
Qed.

Lemma item_dentro {A} (xs : list A) k x h :
  (- Z.of_nat (length xs) ≤ k < Z.of_nat (length xs))%Z →
  xs !! posicao (length xs) k = Some x → item xs k h = Some (x, h).
Proof. intros Hk Hx. unfold item. rewrite indice_Some by done. simpl. by rewrite Hx. Qed.

Lemma item_fora {A} (xs : list A) k h :
  ¬ (- Z.of_nat (length xs) ≤ k < Z.of_nat (length xs))%Z → item xs k h = None.
Proof. intros Hk. unfold item. by rewrite indice_None. Qed.

Lemma bind_None {A B} (m : M A) (k : A → M B) h :
  m h = None → (x ← m; k x) h = None.
Proof. unfold mbind, M_bind. by intros ->. Qed.

(** The rows of a 3×3 board in the store. *)
Lemma feito_de_linha h q tl ls t (p : nat) :
  feito_de h q tl ls t → QuebraCabeca.tabela_ok t → p < 3 →
  length ls = 3 ∧ ∃ lin xs, ls !! p = Some lin ∧ t !! p = Some xs
    ∧ h !! lin = Some (Linha xs) ∧ length xs = 3.
Proof.
  intros (_ & _ & Hls) [Hlen Hrows] Hp.
  pose proof (Forall2_length _ _ _ Hls) as Hlen'. split; [lia|].
  destruct (lookup_lt_is_Some_2 t p) as [xs Hxs]; [lia|].
  destruct (Forall2_lookup_r _ _ _ _ _ Hls Hxs) as (lin & Hlin & Hh).
  exists lin, xs. split_and!; [done..|].
  eapply Forall_lookup_1 in Hrows; [|exact Hxs]. done.
Qed.

Lemma obter_dentro h q tl ls t (r c : Z) :
  feito_de h q tl ls t → QuebraCabeca.tabela_ok t →
  (-3 ≤ r < 3)%Z → (-3 ≤ c < 3)%Z →
  ∃ v, QuebraCabeca.celula t (r `mod` 3) (c `mod` 3) = Some v
       ∧ obter q r c h = Some (v, h).
Proof.
  intros Hf Hok Hr Hc.
  destruct (feito_de_linha h q tl ls t (posicao 3 r) Hf Hok)
    as (Hlen & lin & xs & Hlin & Hxs & Hh & Hlenx); [apply posicao_lt; lia|].
  destruct (lookup_lt_is_Some_2 xs (posicao 3 c)) as [v Hv];
    [rewrite Hlenx; apply posicao_lt; lia|].
  exists v. split.
  - apply celula_Some. exists xs. done.
  - destruct Hf as (Hq & Htl & _). unfold obter.
    erewrite bind_Some; [|by eapply campo_tabela_Some].
    erewrite bind_Some; [|by eapply ler_linhas_Some].
    erewrite bind_Some; [|apply item_dentro; rewrite Hlen; [lia|done]].
    erewrite bind_Some; [|by eapply ler_linha_Some].
    apply item_dentro; rewrite Hlenx; [lia|done].
Qed.

Lemma obter_fora h q tl ls t (r c : Z) :
  feito_de h q tl ls t → QuebraCabeca.tabela_ok t →
  ¬ ((-3 ≤ r < 3)%Z ∧ (-3 ≤ c < 3)%Z) → obter q r c h = None.
Proof.
  intros Hf Hok Hrc. unfold obter.
  pose proof Hf as (Hq & Htl & _).
  erewrite bind_Some; [|by eapply campo_tabela_Some].
  erewrite bind_Some; [|by eapply ler_linhas_Some].
  destruct (decide (-3 ≤ r < 3)%Z) as [Hr|Hr].
  - destruct (feito_de_linha h q tl ls t (posicao 3 r) Hf Hok)
      as (Hlen & lin & xs & Hlin & Hxs & Hh & Hlenx); [apply posicao_lt; lia|].
    erewrite bind_Some; [|apply item_dentro; rewrite Hlen; [lia|done]].
    erewrite bind_Some; [|by eapply ler_linha_Some].
    apply item_fora. rewrite Hlenx. lia.
  - destruct (feito_de_linha h q tl ls t 0 Hf Hok) as (Hlen & _); [lia|].
    apply bind_None, item_fora. rewrite Hlen. lia.
Qed.

Lemma posicao_mod k : posicao 3 (k `mod` 3) = posicao 3 k.
Proof. unfold posicao. change (Z.of_nat 3) with 3%Z. by rewrite Zmod_mod. Qed.

Lemma atribuir_valor h q tl ls (r c : Z) v lin xs :
  h !! q = Some (Quebra QuebraCabeca.tamanho tl) → h !! tl = Some (Linhas ls) →
  length ls = 3 → ls !! posicao 3 r = Some lin →
  h !! lin = Some (Linha xs) → length xs = 3 →
  (-3 ≤ r < 3)%Z → (-3 ≤ c < 3)%Z →
  atribuir q r c v h = Some ((), <[lin := Linha (<[posicao 3 c := v]> xs)]> h).
Proof.
  intros Hq Htl Hlen Hlin Hh Hlenx Hr Hc. unfold atribuir.
  erewrite bind_Some; [|by eapply campo_tabela_Some].
  erewrite bind_Some; [|by eapply ler_linhas_Some].
  erewrite bind_Some; [|apply item_dentro; rewrite Hlen; [lia|done]].
  erewrite bind_Some; [|by eapply ler_linha_Some].
  rewrite Hlenx, indice_Some by lia. done.
Qed.

Lemma atribuir_dentro h q tl ls t (r c : Z) v :
  feito_de h q tl ls t → QuebraCabeca.tabela_ok t → NoDup ls →
  (-3 ≤ r < 3)%Z → (-3 ≤ c < 3)%Z →
  atribuir q r c v h = atribuir q (r `mod` 3) (c `mod` 3) v h
  ∧ ∃ lin xs, lin ∈ ls
      ∧ atribuir q (r `mod` 3) (c `mod` 3) v h = Some ((), <[lin := Linha xs]> h)
      ∧ feito_de (<[lin := Linha xs]> h) q tl ls
          (QuebraCabeca.atribuir t (r `mod` 3) (c `mod` 3) v).
Proof.
  intros Hf Hok Hnd Hr Hc.
  pose proof (Z.mod_pos_bound r 3 ltac:(lia)) as Hr'.
  pose proof (Z.mod_pos_bound c 3 ltac:(lia)) as Hc'.
  destruct (feito_de_linha h q tl ls t (posicao 3 r) Hf Hok)
    as (Hlen & lin & xs & Hlin & Hxs & Hh & Hlenx); [apply posicao_lt; lia|].
  split.
  - pose proof Hf as (Hq & Htl & _).
    assert (ls !! posicao 3 (r `mod` 3) = Some lin) as Hlin'
      by (by rewrite (posicao_mod r)).
    rewrite (atribuir_valor h q tl ls r c v lin xs Hq Htl Hlen Hlin Hh Hlenx Hr Hc).
    rewrite (atribuir_valor h q tl ls (r `mod` 3) (c `mod` 3) v lin xs
               Hq Htl Hlen Hlin' Hh Hlenx) by lia.
    by rewrite (posicao_mod c).
  - apply atribuir_spec; [done..|lia|lia|].
    apply tabela_ok_celula; [done|lia..].
Qed.

Lemma obter_normaliza h q tl ls t (r c : Z) :
  feito_de h q tl ls t → QuebraCabeca.tabela_ok t →
  (-3 ≤ r < 3)%Z → (-3 ≤ c < 3)%Z →
  obter q r c h = obter q (r `mod` 3) (c `mod` 3) h.
Proof.
  intros Hf Hok Hr Hc.
  pose proof (Z.mod_pos_bound r 3 ltac:(lia)) as Hr'.
  pose proof (Z.mod_pos_bound c 3 ltac:(lia)) as Hc'.
  destruct (obter_dentro h q tl ls t r c Hf Hok Hr Hc) as (v & Hv & ->).
  destruct (obter_dentro h q tl ls t (r `mod` 3) (c `mod` 3) Hf Hok) as (v' & Hv' & ->);
    [lia..|].
  rewrite !Zmod_mod in Hv'. congruence.
Qed.

Lemma mover_apos_copiar h self (i j r c : Z) copia h1 :
  copiar self h = Some (copia, h1) →
  mover self (i, j) (r, c) h =
  (v_rc ← obter copia r c; v_ij ← obter copia i j;
   _ ← atribuir copia i j v_rc; _ ← atribuir copia r c v_ij; mret copia) h1.
Proof. intros Hrun. unfold mover. by erewrite bind_Some. Qed.

(** A move with coordinates between -3 and 2: what it returns, and that
    the coordinates taken modulo 3 give the same. *)
Lemma mover_dentro_geral h self t (i j r c : Z) :
  representa h self t → QuebraCabeca.tabela_ok t →
  (-3 ≤ i < 3)%Z → (-3 ≤ j < 3)%Z → (-3 ≤ r < 3)%Z → (-3 ≤ c < 3)%Z →
  ∃ copia h',
    mover self (i, j) (r, c) h = Some (copia, h')
    ∧ mover self (i `mod` 3, j `mod` 3)%Z (r `mod` 3, c `mod` 3)%Z h = Some (copia, h')
    ∧ h ⊆ h'
    ∧ representa h' copia
        (QuebraCabeca.mover t (i `mod` 3, j `mod` 3)%Z (r `mod` 3, c `mod` 3)%Z).
Proof.
  intros Hrep Hok Hi Hj Hr Hc.
  destruct (copiar_spec h self t Hrep)
    as (copia & h1 & tl & ls & Hrun & Hsub & Hfeito & Hnd & Hfresh).
  apply Forall_cons in Hfresh as [_ [_ Hls]%Forall_cons].
  destruct (obter_dentro h1 copia tl ls t r c Hfeito Hok Hr Hc) as (v_rc & Hcrc & Hrc).
  destruct (obter_dentro h1 copia tl ls t i j Hfeito Hok Hi Hj) as (v_ij & Hcij & Hij).
  destruct (atribuir_dentro h1 copia tl ls t i j v_rc Hfeito Hok Hnd Hi Hj)
    as (Heq1 & lin1 & xs1 & Hlin1 & Hat1 & Hfeito1).
  pose proof (atribuir_ok t (i `mod` 3) (j `mod` 3) v_rc Hok) as Hok1.
  destruct (atribuir_dentro _ copia tl ls _ r c v_ij Hfeito1 Hok1 Hnd Hr Hc)
    as (Heq2 & lin2 & xs2 & Hlin2 & Hat2 & Hfeito2).
  exists copia, (<[lin2 := Linha xs2]> (<[lin1 := Linha xs1]> h1)). split_and!.
  - rewrite (mover_apos_copiar _ _ _ _ _ _ _ _ Hrun).
    erewrite bind_Some; [|exact Hrc]. erewrite bind_Some; [|exact Hij].
    erewrite bind_Some; [|by rewrite Heq1]. erewrite bind_Some; [|by rewrite Heq2]. done.
  - rewrite (mover_apos_copiar _ _ _ _ _ _ _ _ Hrun).
    erewrite bind_Some; [|by rewrite <- (obter_normaliza _ _ _ _ _ _ _ Hfeito Hok Hr Hc)].
    erewrite bind_Some; [|by rewrite <- (obter_normaliza _ _ _ _ _ _ _ Hfeito Hok Hi Hj)].
    erewrite bind_Some; [|exact Hat1]. erewrite bind_Some; [|exact Hat2]. done.
  - apply subseteq_insert_fora; [|by eapply Forall_forall in Hls].
    apply subseteq_insert_fora; [done|by eapply Forall_forall in Hls].
  - unfold QuebraCabeca.mover. rewrite copiar_id, Hcrc, Hcij.
    by eapply feito_de_representa.
Qed.

(** X12. On a 3×3 board [mover] succeeds exactly when the four
    coordinates lie between -3 and 2; with any coordinate outside that
    range it raises IndexError. *)
Theorem mover_sucede_sse h self t (i j r c : Z) :
  representa h self t → QuebraCabeca.tabela_ok t →
  is_Some (mover self (i, j) (r, c) h)
  ↔ (-3 ≤ i < 3)%Z ∧ (-3 ≤ j < 3)%Z ∧ (-3 ≤ r < 3)%Z ∧ (-3 ≤ c < 3)%Z.
Proof.
  intros Hrep Hok. split.
  - intros Hsome.
    destruct (copiar_spec h self t Hrep)
      as (copia & h1 & tl & ls & Hrun & _ & Hfeito & _ & _).
    rewrite (mover_apos_copiar _ _ _ _ _ _ _ _ Hrun) in Hsome.
    destruct (decide ((-3 ≤ r < 3)%Z ∧ (-3 ≤ c < 3)%Z)) as [[Hr Hc]|Hrc].
    + destruct (decide ((-3 ≤ i < 3)%Z ∧ (-3 ≤ j < 3)%Z)) as [[Hi Hj]|Hij]; [done|].
      destruct (obter_dentro h1 copia tl ls t r c Hfeito Hok Hr Hc) as (v & _ & Hv).
      erewrite bind_Some in Hsome; [|exact Hv].
      rewrite bind_None in Hsome by (by eapply obter_fora).
      by destruct Hsome.
    + rewrite bind_None in Hsome by (by eapply obter_fora). by destruct Hsome.
  - intros (Hi & Hj & Hr & Hc).
    destruct (mover_dentro_geral h self t i j r c Hrep Hok Hi Hj Hr Hc)
      as (copia & h' & -> & _). by eexists.
Qed.

(** X13. On a 3×3 board a negative coordinate counts from the end: with
    coordinates between -3 and 2, [mover] returns the same object and the
    same store as with each coordinate taken modulo 3, the new board is
    the old one with the two cells so denoted exchanged, and the objects
    that existed before are unchanged. *)
Theorem mover_indice_negativo h self t (i j r c : Z) :
  representa h self t → QuebraCabeca.tabela_ok t →
  (-3 ≤ i < 3)%Z → (-3 ≤ j < 3)%Z → (-3 ≤ r < 3)%Z → (-3 ≤ c < 3)%Z →
  mover self (i, j) (r, c) h
  = mover self (i `mod` 3, j `mod` 3)%Z (r `mod` 3, c `mod` 3)%Z h
  ∧ ∃ copia h', mover self (i, j) (r, c) h = Some (copia, h')
      ∧ h ⊆ h'
      ∧ representa h' copia
          (QuebraCabeca.mover t (i `mod` 3, j `mod` 3)%Z (r `mod` 3, c `mod` 3)%Z).
Proof.
  intros Hrep Hok Hi Hj Hr Hc.
  destruct (mover_dentro_geral h self t i j r c Hrep Hok Hi Hj Hr Hc)
    as (copia & h' & H1 & H2 & Hsub & Hrep').
  split; [by rewrite H1, H2|]. by exists copia, h'.
Qed.

(** X14. [copiar] makes a deep copy of any board: it returns a new
    [QuebraCabeca] reading as the same board, made of a new instance, a
    new board list and one new row list per row, all distinct from each
    other even when the source uses one row object several times; every
    object that existed before is unchanged. *)
Theorem copiar_profunda h self t :
  representa h self t →
  ∃ copia h', copiar self h = Some (copia, h')
    ∧ h ⊆ h'
    ∧ representa h' copia t
    ∧ length (objetos_de h' copia) = 2 + length t
    ∧ NoDup (objetos_de h' copia)
    ∧ ∀ l, l ∈ objetos_de h' copia → l ∉ dom h.
Proof.
  intros Hrep.
  destruct (copiar_spec h self t Hrep)
    as (copia & h' & tl & ls & Hrun & Hsub & Hfeito & Hnd & Hfresh).
  exists copia, h'. rewrite (feito_de_objetos _ _ _ _ _ Hfeito).
  pose proof Hfeito as (Hq & Htl & Hls).
  split_and!; [done|done|by eapply feito_de_representa| | |].
  - simpl. by rewrite (Forall2_length _ _ _ Hls).
  - assert (∀ l, l ∈ ls → ∃ xs, h' !! l = Some (Linha xs)) as Hlin.
    { intros l [k Hk]%list_elem_of_lookup.
      destruct (Forall2_lookup_l _ _ _ _ _ Hls Hk) as (xs & _ & ?). eauto. }
    repeat constructor; [| |done].
    + intros [->|Hin]%elem_of_cons; [congruence|].
      destruct (Hlin _ Hin) as [xs ?]. congruence.
    + intros Hin. destruct (Hlin _ Hin) as [xs ?]. congruence.
  - intros l Hl. by eapply Forall_forall in Hfresh.
Qed.
End Memoria_indices.

(** ** The search on the puzzle: concrete runs *)
Module Exemplos.
Import QuebraCabeca_facts Tabuleiros.

Abbreviation buscar_quebra :=
  (buscar QuebraCabeca.objetivo QuebraCabeca.str QuebraCabeca.acoes).

Lemma quase_ok : QuebraCabeca.tabela_ok quase.
Proof. split; [done|]. by repeat constructor. Qed.

Lemma quase_digitos : Forall (λ x, 0 ≤ x ≤ 9)%Z (mjoin quase).
Proof. repeat constructor; lia. Qed.

Lemma estado_inicial_ok : QuebraCabeca.tabela_ok QuebraCabeca.estado_inicial.
Proof. split; [done|]. by repeat constructor. Qed.




(** Termination on the puzzle: from every 3×3 board, in both modes, the
    loop ends within [size (QuebraCabeca.chaves_de t0)] iterations. *)
Lemma quebra_cabeca_termina t0 tipo_busca fuel :
  QuebraCabeca.tabela_ok t0 → size (QuebraCabeca.chaves_de t0) < fuel →
  (buscar_quebra t0 tipo_busca fuel).1 ≠ SemCombustivel.
Proof.
  intros Hok Hfuel. apply (buscar_nao_esgota _ _ _ t0 (QuebraCabeca.chaves_de t0)); [|done].
  intros s. by apply alcancavel_chaves.
Qed.

(** No solution on the puzzle: from a 3×3 board with no reachable goal
    both modes empty the frontier and return [None]. *)
Lemma quebra_cabeca_sem_solucao t0 tipo_busca fuel :
  QuebraCabeca.tabela_ok t0 →
  tipo_busca = "largura" ∨ tipo_busca = "profundidade" →
  (∀ s, alcancavel QuebraCabeca.acoes t0 s → QuebraCabeca.objetivo s = false) →
  size (QuebraCabeca.chaves_de t0) < fuel →
  (buscar_quebra t0 tipo_busca fuel).1 = Nenhum
  ∧ borda (buscar_quebra t0 tipo_busca fuel).2 = [].
Proof.
  intros Hok Hmodo Hsem Hfuel.
  pose proof (quebra_cabeca_termina t0 tipo_busca fuel Hok Hfuel) as Hne.
  destruct (buscar_modo QuebraCabeca.objetivo QuebraCabeca.str QuebraCabeca.acoes
              t0 tipo_busca fuel Hmodo) as [l Hl].
  destruct (laco_resultado QuebraCabeca.objetivo QuebraCabeca.str QuebraCabeca.acoes
              l fuel (inicial QuebraCabeca.str t0)) as [[n Hn]|[?|Hr]].
  - rewrite <- Hl in Hn. apply buscar_valido in Hn as (n' & _ & Hv & Hobj).
    rewrite Hsem in Hobj; [done|]. eexists. eapply valido_alcancavel. exact Hv.
  - by rewrite Hl.
  - rewrite Hl in Hne. done.
Qed.

(** Shortest paths on the puzzle: on a 3×3 board of single digits the keys
    tell the reachable boards apart, so a path returned by breadth-first
    search has the fewest moves of all ways to a goal. *)
Lemma quebra_cabeca_largura_minimo t0 fuel p k s :
  QuebraCabeca.tabela_ok t0 → Forall (λ x, 0 ≤ x ≤ 9)%Z (mjoin t0) →
  (buscar_quebra t0 "largura" fuel).1 = Caminho p →
  alcancavel_em QuebraCabeca.acoes t0 k s → QuebraCabeca.objetivo s = true →
  length p - 1 ≤ k.
Proof.
  intros Hok Hd Hp Hs Hobj.
  change (buscar_quebra t0 "largura" fuel)
    with (laco QuebraCabeca.objetivo QuebraCabeca.str QuebraCabeca.acoes true fuel
            (inicial QuebraCabeca.str t0)) in Hp.
  eapply laco_largura_minimo in Hp as (n & -> & _ & _ & Hmin);
    [|intros s1 s2; by apply alcancavel_str_inj|apply inv_largura_inicial].
  rewrite caminho_length. specialize (Hmin k s Hs Hobj). lia.
Qed.

(** Witness of C1: breadth-first search from [quase]. *)
Lemma largura_caminho_minimo_witness :
  (∃ g, last [quase_raiz; quase_solucao] = Some g
        ∧ QuebraCabeca.objetivo (estado g) = true
        ∧ alcancavel_em QuebraCabeca.acoes quase
            (length [quase_raiz; quase_solucao] - 1) (estado g))
  ∧ (∀ k s, alcancavel_em QuebraCabeca.acoes quase k s →
       QuebraCabeca.objetivo s = true → length [quase_raiz; quase_solucao] - 1 ≤ k).
Proof.
  apply (largura_caminho_minimo QuebraCabeca.objetivo QuebraCabeca.str
           QuebraCabeca.acoes quase 10 [quase_raiz; quase_solucao]).
  - intros s1 s2. apply alcancavel_str_inj; [apply quase_ok|apply quase_digitos].
  - vm_compute. reflexivity.
Defined.

(** The breadth-first run from [dez], evaluated with the explored keys in
    a list: it returns a path of 12 nodes. *)
Lemma dez_largura_lista :
  match laco_lista QuebraCabeca.objetivo QuebraCabeca.str QuebraCabeca.acoes true 1100
          [novo_nodo dez None None] [QuebraCabeca.str dez] with
  | Caminho p => Some (length p)
  | _ => None
  end = Some 12.
Proof. vm_cast_no_check (eq_refl (Some 12)). Qed.

(** Counterexample to C1 as stated: [QuebraCabeca] accepts the board
    [dez], on which distinct boards share a key; from it a goal is reached
    by 9 actions, and breadth-first search returns a path of 11. *)
Lemma largura_caminho_minimo_contraexemplo :
  ∃ p s, (buscar_quebra dez "largura" 1100).1 = Caminho p
    ∧ length p - 1 = 11
    ∧ alcancavel_em QuebraCabeca.acoes dez 9 s
    ∧ QuebraCabeca.objetivo s = true.
Proof.
  destruct (buscar_largura_lista QuebraCabeca.objetivo QuebraCabeca.str
              QuebraCabeca.acoes dez 1100 11 dez_largura_lista) as (p & Hp & Hlen).
  exists p, [[6; 8; 1]; [0; 5; 10]; [9; 2; 4]]%Z. split_and!.
  - exact Hp.
  - exact Hlen.
  - apply (seguir_alcancavel QuebraCabeca.acoes dez dez_atalho 0 dez); [constructor|].
    vm_compute. reflexivity.
  - vm_compute. reflexivity.
Qed.

(** Counterexample to C3 as stated: the breadth-first run from [quase]
    returns a path after adding 9 keys to the explored set while 11 nodes
    were constructed. *)
Lemma chaves_e_nodos_contraexemplo :
  (∃ p, (buscar_quebra quase "largura" 10).1 = Caminho p)
  ∧ size (explorado (buscar_quebra quase "largura" 10).2) = 9
  ∧ criados (buscar_quebra quase "largura" 10).2 = 11
  ∧ size (explorado (buscar_quebra quase "largura" 10).2)
    ≠ criados (buscar_quebra quase "largura" 10).2.
Proof.
  split_and!.
  - eexists. vm_compute. reflexivity.
  - vm_compute. reflexivity.
  - vm_compute. reflexivity.
  - vm_compute. lia.
Qed.

(** Witness of C4: the path depth-first search returns from [abaixo]. *)
Lemma caminho_valido_witness :
  (∃ n0, [abaixo_raiz; abaixo_solucao] !! 0 = Some n0
         ∧ estado n0 = abaixo ∧ pai n0 = None ∧ acao n0 = "Z")
  ∧ (∀ i a b, [abaixo_raiz; abaixo_solucao] !! i = Some a →
       [abaixo_raiz; abaixo_solucao] !! S i = Some b →
       ∃ ma, ma ∈ QuebraCabeca.acoes (estado a)
             ∧ estado b = ma.1 () ∧ acao b = ma.2 ∧ pai b = Some a)
  ∧ (∀ i a, [abaixo_raiz; abaixo_solucao] !! i = Some a →
       (QuebraCabeca.objetivo (estado a) = true
        ↔ S i = length [abaixo_raiz; abaixo_solucao])).
Proof.
  apply (caminho_valido QuebraCabeca.objetivo QuebraCabeca.str QuebraCabeca.acoes
           abaixo "profundidade" 2 [abaixo_raiz; abaixo_solucao]).
  vm_compute. reflexivity.
Defined.


(** Witness of C7: the run from [estado_inicial] of [main]. *)
Lemma buscar_termina_witness :
  (buscar_quebra QuebraCabeca.estado_inicial "profundidade"
     (S (size (QuebraCabeca.chaves_de QuebraCabeca.estado_inicial)))).1 ≠ SemCombustivel
  ∧ NoDup (chave QuebraCabeca.str <$> enfileirados
      (buscar_quebra QuebraCabeca.estado_inicial "profundidade"
         (S (size (QuebraCabeca.chaves_de QuebraCabeca.estado_inicial)))).2)
  ∧ size (explorado (buscar_quebra QuebraCabeca.estado_inicial "profundidade"
         (S (size (QuebraCabeca.chaves_de QuebraCabeca.estado_inicial)))).2)
    = length (enfileirados (buscar_quebra QuebraCabeca.estado_inicial "profundidade"
         (S (size (QuebraCabeca.chaves_de QuebraCabeca.estado_inicial)))).2)
  ∧ length (visitados (buscar_quebra QuebraCabeca.estado_inicial "profundidade"
         (S (size (QuebraCabeca.chaves_de QuebraCabeca.estado_inicial)))).2)
    ≤ size (QuebraCabeca.chaves_de QuebraCabeca.estado_inicial).
Proof.
  apply (buscar_termina QuebraCabeca.objetivo QuebraCabeca.str QuebraCabeca.acoes
           QuebraCabeca.estado_inicial (QuebraCabeca.chaves_de QuebraCabeca.estado_inicial)).
  - intros s. apply alcancavel_chaves, estado_inicial_ok.
  - lia.
Defined.



(** Witness of C10: an unknown search type. *)
Lemma buscar_tipo_desconhecido_witness :
  buscar_quebra QuebraCabeca.estado_inicial "a_estrela" 100
  = (Nenhum, mkExecucao [novo_nodo QuebraCabeca.estado_inicial None None]
               {[ QuebraCabeca.str QuebraCabeca.estado_inicial ]} [] 1).
Proof.
  apply (buscar_tipo_desconhecido QuebraCabeca.objetivo QuebraCabeca.str
           QuebraCabeca.acoes QuebraCabeca.estado_inicial "a_estrela" 100); discriminate.
Defined.

(** Witness of C2: a magic square. *)
Lemma objetivo_sse_somas_15_witness :
  QuebraCabeca.objetivo [[2; 7; 6]; [9; 5; 1]; [4; 3; 8]]%Z = true
  ↔ ((2 + 7 + 6 = 15 ∧ 9 + 5 + 1 = 15 ∧ 4 + 3 + 8 = 15)
     ∧ (2 + 9 + 4 = 15 ∧ 7 + 5 + 3 = 15 ∧ 6 + 1 + 8 = 15)
     ∧ (2 + 5 + 8 = 15 ∧ 4 + 5 + 6 = 15))%Z.
Proof.
  apply (QuebraCabeca_objetivo.objetivo_sse_somas_15 2 7 6 9 5 1 4 3 8).
  repeat constructor; lia.
Defined.

(** Witness of C9: moving the tile 6 of [estado_inicial] onto the blank. *)
Lemma mover_preserva_origem_witness :
  ∃ copia h',
    Memoria.mover 0 (0, 0)%Z (0, 1)%Z memoria_inicial = Some (copia, h')
    ∧ memoria_inicial ⊆ h'
    ∧ Memoria.representa h' 0 QuebraCabeca.estado_inicial
    ∧ Memoria.representa h' copia
        (QuebraCabeca.mover QuebraCabeca.estado_inicial (0, 0)%Z (0, 1)%Z)
    ∧ copia ∈ Memoria.objetos_de h' copia
    ∧ ∀ l, l ∈ Memoria.objetos_de h' copia → l ∉ dom memoria_inicial.
Proof.
  apply (Memoria_facts.mover_preserva_origem memoria_inicial 0
           QuebraCabeca.estado_inicial (0, 0)%Z (0, 1)%Z "3 Esquerda").
  - exists 1, [2; 3; 4]. split_and!; [reflexivity..|]. by repeat constructor.
  - apply estado_inicial_ok.
  - vm_compute. set_solver.
Defined.
End Exemplos.

(** ** Further concrete runs and boards *)
Module Exemplos_cobertura.
Import QuebraCabeca_facts Tabuleiros Exemplos.

Lemma quase_chave_inj s1 s2 :
  alcancavel QuebraCabeca.acoes quase s1 → alcancavel QuebraCabeca.acoes quase s2 →
  QuebraCabeca.str s1 = QuebraCabeca.str s2 → s1 = s2.
Proof. apply alcancavel_str_inj; [apply quase_ok|apply quase_digitos]. Qed.

Lemma quase_esquerda_acao : quase_esquerda ∈ QuebraCabeca.acoes quase.
Proof.
  unfold QuebraCabeca.acoes. apply list_elem_of_fmap.
  exists ((1, 0), (1, 1), "3 Esquerda")%Z. split; [done|].
  vm_compute. right. left.
Qed.

Lemma quase_solucao_alcancavel :
  alcancavel_em QuebraCabeca.acoes quase 1 (estado quase_solucao).
Proof.
  apply (alcancavel_passo QuebraCabeca.acoes quase 0 quase quase_esquerda);
    [constructor|apply quase_esquerda_acao].
Qed.

Lemma memoria_inicial_representa :
  Memoria.representa memoria_inicial 0 QuebraCabeca.estado_inicial.
Proof. exists 1, [2; 3; 4]. split_and!; [reflexivity..|]. by repeat constructor. Qed.

Lemma quase_um_nove : QuebraCabeca.um_nove quase (1, 1)%Z.
Proof.
  split; [unfold QuebraCabeca.dentro; simpl; lia|].
  intros [a b] [Ha Hb]. simpl in Ha, Hb.
  assert (a = 0 ∨ a = 1 ∨ a = 2)%Z as [-> | [-> | ->]] by lia;
    (assert (b = 0 ∨ b = 1 ∨ b = 2)%Z as [-> | [-> | ->]] by lia);
    vm_compute; split; congruence.
Qed.

(** Witness of X1: the path breadth-first search returns from [quase]. *)
Lemma caminho_sem_repeticao_witness :
  NoDup (chave QuebraCabeca.str <$> [quase_raiz; quase_solucao])
  ∧ (∀ x, x ∈ [quase_raiz; quase_solucao] →
       chave QuebraCabeca.str x ∈ explorado (buscar_quebra quase "largura" 10).2)
  ∧ length [quase_raiz; quase_solucao]
    ≤ size (explorado (buscar_quebra quase "largura" 10).2).
Proof.
  apply (caminho_sem_repeticao QuebraCabeca.objetivo QuebraCabeca.str
           QuebraCabeca.acoes quase "largura" 10 [quase_raiz; quase_solucao]).
  vm_compute. reflexivity.
Defined.

(** Witness of X2: a goal is one move away from [quase]. *)
Lemma busca_completa_witness :
  ∃ p, (buscar_quebra quase "profundidade"
          (S (size (QuebraCabeca.chaves_de quase)))).1 = Caminho p.
Proof.
  apply (busca_completa QuebraCabeca.objetivo QuebraCabeca.str QuebraCabeca.acoes
           quase quase_chave_inj (QuebraCabeca.chaves_de quase) "profundidade"
           (S (size (QuebraCabeca.chaves_de quase))) 1 (estado quase_solucao)).
  - intros s. apply alcancavel_chaves, quase_ok.
  - lia.
  - by right.
  - apply quase_solucao_alcancavel.
  - vm_compute. reflexivity.
Defined.


(** Witness of X5: the goal node of the run from [quase]. *)
Lemma largura_distancias_witness :
  alcancavel_em QuebraCabeca.acoes quase (profundidade quase_solucao) (estado quase_solucao)
  ∧ ∀ k, alcancavel_em QuebraCabeca.acoes quase k (estado quase_solucao) →
      profundidade quase_solucao ≤ k.
Proof.
  apply (largura_distancias QuebraCabeca.objetivo QuebraCabeca.str QuebraCabeca.acoes
           quase quase_chave_inj 10 quase_solucao).
  vm_compute. do 3 right. left.
Defined.

(** Witness of X6: the actions of [quase]. *)
Lemma acoes_vizinhos_witness :
  (∀ ma, ma ∈ QuebraCabeca.acoes quase →
     ∃ o d, QuebraCabeca.dentro o ∧ QuebraCabeca.dentro d
       ∧ QuebraCabeca.celula_em quase d = Some 9%Z
       ∧ QuebraCabeca.direcao_de ma.2 = Some ((o.1 - d.1)%Z, (o.2 - d.2)%Z)
       ∧ ma.1 () = QuebraCabeca.mover quase o d)
  ∧ (∀ o d a, QuebraCabeca.dentro o → QuebraCabeca.dentro d →
       QuebraCabeca.celula_em quase d = Some 9%Z →
       QuebraCabeca.direcao_de a = Some ((o.1 - d.1)%Z, (o.2 - d.2)%Z) →
       ∃ ma, ma ∈ QuebraCabeca.acoes quase ∧ ma.2 = a
             ∧ ma.1 () = QuebraCabeca.mover quase o d).
Proof. apply (QuebraCabeca_movimentos.acoes_vizinhos quase quase_ok). Defined.

(** Witness of X7: exchanging the centre of [quase] with the cell on its
    left. *)
Lemma mover_troca_witness :
  let t' := QuebraCabeca.mover quase (1, 0)%Z (1, 1)%Z in
  QuebraCabeca.tabela_ok t'
  ∧ QuebraCabeca.celula_em t' (1, 0)%Z = QuebraCabeca.celula_em quase (1, 1)%Z
  ∧ QuebraCabeca.celula_em t' (1, 1)%Z = QuebraCabeca.celula_em quase (1, 0)%Z
  ∧ (∀ p, QuebraCabeca.dentro p → p ≠ (1, 0)%Z → p ≠ (1, 1)%Z →
       QuebraCabeca.celula_em t' p = QuebraCabeca.celula_em quase p)
  ∧ QuebraCabeca.mover t' (1, 0)%Z (1, 1)%Z = quase.
Proof.
  apply (QuebraCabeca_movimentos.mover_troca quase (1, 0)%Z (1, 1)%Z quase_ok);
    unfold QuebraCabeca.dentro; simpl; lia.
Defined.

(** Witness of X8: the move to the left from [quase] is undone by a move
    to the right. *)
Lemma acao_reversivel_witness :
  ∃ ma' v, ma' ∈ QuebraCabeca.acoes (quase_esquerda.1 ())
    ∧ ma'.1 () = quase
    ∧ QuebraCabeca.direcao_de quase_esquerda.2 = Some v
    ∧ QuebraCabeca.direcao_de ma'.2 = Some ((- v.1)%Z, (- v.2)%Z).
Proof.
  apply (QuebraCabeca_movimentos.acao_reversivel quase quase_esquerda quase_ok
           quase_esquerda_acao).
Defined.

(** Witness of X9: the goal board one move away from [quase]. *)
Lemma alcancavel_mesmas_pecas_witness :
  QuebraCabeca.tabela_ok (estado quase_solucao)
  ∧ QuebraCabeca.iter (estado quase_solucao) ≡ₚ QuebraCabeca.iter quase.
Proof.
  apply (QuebraCabeca_movimentos.alcancavel_mesmas_pecas quase (estado quase_solucao)
           quase_ok).
  exists 1. apply quase_solucao_alcancavel.
Defined.

(** Witness of X10: the blank of [quase] is in the centre. *)
Lemma um_nove_acoes_witness :
  2 ≤ length (QuebraCabeca.acoes quase) ≤ 4
  ∧ NoDup (QuebraCabeca.acoes quase).*2
  ∧ NoDup ((λ ma : (unit → list (list Z)) * string, ma.1 ()) <$> QuebraCabeca.acoes quase)
  ∧ ∀ ma, ma ∈ QuebraCabeca.acoes quase →
      ∃ o : Z * Z,
        QuebraCabeca.direcao_de ma.2 = Some ((o.1 - 1)%Z, (o.2 - 1)%Z)
        ∧ ma.1 () = QuebraCabeca.mover quase o (1, 1)%Z
        ∧ QuebraCabeca.um_nove (ma.1 ()) o.
Proof.
  apply (QuebraCabeca_movimentos.um_nove_acoes quase (1, 1)%Z quase_ok quase_um_nove).
Defined.

(** Witness of X11: the keys of [quase] and [abaixo]. *)
Lemma str_sem_colisao_witness :
  String.length (QuebraCabeca.str quase) = 9
  ∧ (QuebraCabeca.str quase = QuebraCabeca.str abaixo ↔ quase = abaixo).
Proof.
  apply (QuebraCabeca_movimentos.str_sem_colisao quase abaixo quase_ok).
  - split; [done|]. by repeat constructor.
  - apply quase_digitos.
  - repeat constructor; lia.
Defined.

(** Witness of X12: coordinates counted from the end of [estado_inicial]. *)
Lemma mover_sucede_sse_witness :
  is_Some (Memoria.mover 0 (-3, 2)%Z (0, -2)%Z memoria_inicial)
  ↔ (-3 ≤ -3 < 3)%Z ∧ (-3 ≤ 2 < 3)%Z ∧ (-3 ≤ 0 < 3)%Z ∧ (-3 ≤ -2 < 3)%Z.
Proof.
  apply (Memoria_indices.mover_sucede_sse memoria_inicial 0 QuebraCabeca.estado_inicial
           (-3) 2 0 (-2) memoria_inicial_representa estado_inicial_ok).
Defined.

(** Witness of X13: the tile 8 of [estado_inicial] moved onto the blank,
    both written with negative coordinates. *)
Lemma mover_indice_negativo_witness :
  Memoria.mover 0 (-3, -1)%Z (0, -2)%Z memoria_inicial
  = Memoria.mover 0 (0, 2)%Z (0, 1)%Z memoria_inicial
  ∧ ∃ copia h', Memoria.mover 0 (-3, -1)%Z (0, -2)%Z memoria_inicial = Some (copia, h')
      ∧ memoria_inicial ⊆ h'
      ∧ Memoria.representa h' copia
          (QuebraCabeca.mover QuebraCabeca.estado_inicial
             (0, 2)%Z (0, 1)%Z).
Proof.
  apply (Memoria_indices.mover_indice_negativo memoria_inicial 0
           QuebraCabeca.estado_inicial (-3) (-1) 0 (-2)
           memoria_inicial_representa estado_inicial_ok); lia.
Defined.

(** Witness of X14: a copy of [estado_inicial]. *)
Lemma copiar_profunda_witness :
  ∃ copia h', Memoria.copiar 0 memoria_inicial = Some (copia, h')
    ∧ memoria_inicial ⊆ h'
    ∧ Memoria.representa h' copia QuebraCabeca.estado_inicial
    ∧ length (Memoria.objetos_de h' copia) = 2 + length QuebraCabeca.estado_inicial
    ∧ NoDup (Memoria.objetos_de h' copia)
    ∧ ∀ l, l ∈ Memoria.objetos_de h' copia → l ∉ dom memoria_inicial.
Proof.
  apply (Memoria_indices.copiar_profunda memoria_inicial 0 QuebraCabeca.estado_inicial
           memoria_inicial_representa).
Defined.
End Exemplos_cobertura.
